(** * Miniflux synchronisation service of fluent-reader

    A shallow embedding of [src/scripts/models/services/miniflux.ts]:
    the transport wrapper [fetchAPI], the paginated fetcher [fetchEntries],
    and the service hooks ([authenticate], [updateSources], [fetchItems],
    [syncItems], [markRead], [markUnread], [markAllRead], [star],
    [unstar]), followed by the properties the specification states about
    them.

    Conventions of the embedding.
    - A JavaScript [number] holding an id, a count or a timestamp is a [Z].
    - An optional field ([lastId?], [serviceRef?], [rules?]) is an [option].
    - Asynchronous code is sequential state passing: every [await] in the
      source is awaited before the next statement runs.
    - Thrown errors are results ([Throw]); [try]/[catch] is a match on them.
    - The [do ... while] loop of [fetchEntries] takes a fuel argument and
      answers [None] only when the fuel runs out. *)

From Stdlib Require Import ZArith List String Ascii Bool Lia Sorted.
From Stdlib Require Import Permutation.
From Stdlib Require Import DecimalString DecimalZ DecimalPos.
Import ListNotations.

Local Open Scope string_scope.
Local Open Scope list_scope.
Local Open Scope Z_scope.

(* ================================================================= *)
(** ** JavaScript primitives used by the service *)

Module Js.

Definition str (a : ascii) : string := String a EmptyString.

(** The double quote and the line feed of the template literals. *)
Definition dq : string := str (ascii_of_nat 34).
Definition nl : string := str (ascii_of_nat 10).

Fixpoint spaces (n : nat) : string :=
  match n with
  | O => EmptyString
  | S n' => String " " (spaces n')
  end.

Fixpoint cat (parts : list string) : string :=
  match parts with
  | [] => EmptyString
  | p :: rest => String.append p (cat rest)
  end.

(** [String(n)] for an integral number. *)
Definition string_of_number (n : Z) : string :=
  NilZero.string_of_int (Z.to_int n).

(** Reading a decimal numeral back, as a server does with a cursor
    parameter. *)
Definition number_of_string (s : string) : option Z :=
  option_map Z.of_int (NilZero.int_of_string s).

(** Truthiness of a number ([NaN] does not occur among ids). *)
Definition truthy_number (n : Z) : bool := negb (n =? 0).

(** Truthiness of a string. *)
Definition truthy_string (s : string) : bool :=
  match s with
  | EmptyString => false
  | String _ _ => true
  end.

(** Truthiness of [string | undefined]. *)
Definition truthy (o : option string) : bool :=
  match o with
  | None => false
  | Some s => truthy_string s
  end.

(** [s.endsWith(suffix)]. *)
Definition endsWith (s suffix : string) : bool :=
  let n := String.length s in
  let m := String.length suffix in
  if Nat.leb m n
  then String.eqb (String.substring (n - m) m s) suffix
  else false.

(** [`${x}`] for [x : string | undefined]. *)
Definition template (o : option string) : string :=
  match o with
  | Some s => s
  | None => "undefined"
  end.

(** [Array.prototype.toString], that is [join(",")], on strings. *)
Definition join (xs : list string) : string := String.concat "," xs.

(** [xs[xs.length - 1]]. *)
Fixpoint lastOf {A : Type} (xs : list A) : option A :=
  match xs with
  | [] => None
  | [x] => Some x
  | _ :: rest => lastOf rest
  end.

End Js.

(* ================================================================= *)
(** ** [URLSearchParams]: an ordered list of name/value pairs *)

Module URLSearchParams.

Definition t := list (string * string).

Definition get (q : t) (name : string) : option string :=
  match find (fun p => String.eqb (fst p) name) q with
  | Some p => Some (snd p)
  | None => None
  end.

Definition has (q : t) (name : string) : bool :=
  existsb (fun p => String.eqb (fst p) name) q.

Definition delete (q : t) (name : string) : t :=
  filter (fun p => negb (String.eqb (fst p) name)) q.

Definition append (q : t) (name value : string) : t :=
  q ++ [(name, value)].

(** [set] overwrites the first pair of that name, drops the others of
    that name, and appends when there is none. *)
Fixpoint set (q : t) (name value : string) : t :=
  match q with
  | [] => [(name, value)]
  | (k, v) :: rest =>
      if String.eqb k name
      then (name, value) :: delete rest name
      else (k, v) :: set rest name value
  end.

End URLSearchParams.

(* ================================================================= *)
(** ** [Map<string, V>]: insertion-ordered, one binding per key *)

Module JsMap.

Definition t (V : Type) := list (string * V).

Definition get {V : Type} (m : t V) (key : string) : option V :=
  match find (fun p => String.eqb (fst p) key) m with
  | Some p => Some (snd p)
  | None => None
  end.

Fixpoint set {V : Type} (m : t V) (key : string) (v : V) : t V :=
  match m with
  | [] => [(key, v)]
  | (k, w) :: rest =>
      if String.eqb k key
      then (k, v) :: rest
      else (k, w) :: set rest key v
  end.

End JsMap.

(* ================================================================= *)
(** ** Data model *)

(** [MinifluxConfigs] (with the [importGroups] flag it inherits from
    [ServiceConfigs]). *)
Record MinifluxConfigs := mkConfigs {
  endpoint : string;
  apiKeyAuth : bool;
  authKey : string;
  fetchLimit : Z;
  lastId : option Z;
  importGroups : bool
}.

Definition set_lastId (c : MinifluxConfigs) (v : option Z) : MinifluxConfigs :=
  mkConfigs (endpoint c) (apiKeyAuth c) (authKey c) (fetchLimit c) v
            (importGroups c).

(** Partial API schema. *)
Record Category := mkCategory { category_title : string }.

Record Feed := mkFeed {
  feed_id : Z;
  feed_url : string;
  feed_title : string;
  feed_category : Category
}.

Inductive EntryStatus := Unread | Read | Removed.

Definition is_read (s : EntryStatus) : bool :=
  match s with
  | Read => true
  | _ => false
  end.

Record Entry := mkEntry {
  id : Z;
  status : EntryStatus;
  title : string;
  url : string;
  published_at : option string;
  created_at : string;
  content : string;
  author : string;
  starred : bool;
  feed : Feed
}.

Record Entries := mkEntries {
  total : Z;
  entries : list Entry
}.

(** The local article ([RSSItem]); dates are epoch milliseconds. *)
Record RSSItem := mkItem {
  item_source : Z;
  item_title : string;
  item_link : string;
  item_date : Z;
  item_fetchedDate : Z;
  item_content : string;
  item_snippet : string;
  item_creator : string;
  item_hasRead : bool;
  item_starred : bool;
  item_hidden : bool;
  item_notify : bool;
  item_serviceRef : option string;
  item_thumb : option string
}.

Definition set_thumb (i : RSSItem) (t : option string) : RSSItem :=
  mkItem (item_source i) (item_title i) (item_link i) (item_date i)
         (item_fetchedDate i) (item_content i) (item_snippet i)
         (item_creator i) (item_hasRead i) (item_starred i) (item_hidden i)
         (item_notify i) (item_serviceRef i) t.

(** The local feed ([RSSSource]), over the type of automation rules. *)
Record RSSSource (Rule : Type) := mkSource {
  sid : Z;
  source_url : string;
  source_name : string;
  source_serviceRef : option string;
  rules : option (list Rule)
}.
Arguments mkSource {Rule}.
Arguments sid {Rule}.
Arguments source_url {Rule}.
Arguments source_name {Rule}.
Arguments source_serviceRef {Rule}.
Arguments rules {Rule}.

(* ================================================================= *)
(** ** The wire *)

(** What [fetch] is handed.  The endpoint [`entries?${queryString}`] is
    kept as the path and the parameter list it serialises. *)
Record Request := mkRequest {
  req_url : string;
  req_query : option URLSearchParams.t;
  req_method : string;
  req_body : option string;
  req_headers : list (string * string)
}.

(** The value [response.json()] resolves to, by shape; [PInvalid] is a
    body that does not decode (the promise rejects), [PUndefined] the
    absent value [updateSources] tests for, [POther] any other object. *)
Inductive Payload :=
| PEntries (e : Entries)
| PFeeds (fs : list Feed)
| PCategories (cs : list Category)
| PErrorMessage (m : string)
| PUndefined
| POther
| PInvalid.

Record Response := mkResponse {
  resp_status : Z;
  resp_json : Payload
}.

(** [fetch] either resolves with a response or rejects. *)
Inductive FetchOutcome :=
| Resolved (r : Response)
| Rejected.

(** [APIError()] and every other exception of the runtime. *)
Inductive Error := APIError | RuntimeError.

Inductive Res (A : Type) :=
| Ok (a : A)
| Throw (e : Error).
Arguments Ok {A}.
Arguments Throw {A}.

(* ================================================================= *)
(** ** The collaborators of the service *)

(** Everything the file imports or calls without defining it: the remote
    service behind [fetch] (with its own state [World]), the automation
    rules ([SourceRule.applyAll]), [htmlDecode], [String.prototype.trim],
    the [Date] parser, [new URL(link).origin] ([None] when the constructor
    throws) and the thumbnail lookup
    [dom.querySelector("img")?.src] on the content parsed under the given
    base. *)
Class Platform := {
  World : Type;
  Rule : Type;
  fetch : World -> Request -> World * FetchOutcome;
  applyAll : list Rule -> RSSItem -> RSSItem;
  htmlDecode : string -> string;
  trim : string -> string;
  parseDate : string -> Z;
  urlOrigin : string -> option string;
  querySelectorImgSrc : string -> string -> option string
}.

(** The state the hooks run against: the redux state ([service],
    [sources]), the local item table, the remote service, and what was
    observed of the run (requests handed to [fetch], lines written by
    [console.log], source groups dispatched, the clock). *)
Record Sys {P : Platform} := mkSys {
  service : MinifluxConfigs;
  sources : list (RSSSource Rule);
  itemsDB : list RSSItem;
  remote : World;
  wire : list Request;
  console : list Error;
  dispatched : list string;
  clock : Z
}.
Arguments mkSys {P}.

Section Service.

Context {P : Platform}.

Definition with_service (s : Sys) (c : MinifluxConfigs) : Sys :=
  mkSys c (sources s) (itemsDB s) (remote s) (wire s) (console s)
        (dispatched s) (clock s).

Definition sent (s : Sys) (w : World) (rq : Request) : Sys :=
  mkSys (service s) (sources s) (itemsDB s) w (wire s ++ [rq]) (console s)
        (dispatched s) (clock s).

Definition console_log (s : Sys) (e : Error) : Sys :=
  mkSys (service s) (sources s) (itemsDB s) (remote s) (wire s)
        (console s ++ [e]) (dispatched s) (clock s).

Definition dispatch_groups (s : Sys) (names : list string) : Sys :=
  mkSys (service s) (sources s) (itemsDB s) (remote s) (wire s)
        (console s) (dispatched s ++ names) (clock s).

(** *** Asynchronous computations that may throw *)

Definition M (A : Type) : Type := Sys -> Sys * Res A.

Definition ret {A : Type} (a : A) : M A := fun s => (s, Ok a).

Definition throw {A : Type} (e : Error) : M A := fun s => (s, Throw e).

Definition bind {A B : Type} (m : M A) (k : A -> M B) : M B :=
  fun s =>
    match m s with
    | (s', Ok a) => k a s'
    | (s', Throw e) => (s', Throw e)
    end.

Definition getState : M Sys := fun s => (s, Ok s).

Notation "x <- m ;; k" := (bind m (fun x => k))
  (at level 61, m at next level, right associativity).
Notation "m ;;; k" := (bind m (fun _ => k))
  (at level 61, right associativity).

(** *** [fetchAPI] *)

Definition auth_header (configs : MinifluxConfigs) : string * string :=
  if apiKeyAuth configs
  then ("X-Auth-Token", authKey configs)
  else ("Authorization", String.append "Basic " (authKey configs)).

Definition baseUrl (configs : MinifluxConfigs) : string :=
  let b := endpoint configs in
  let b := if Js.endsWith b "/" then b else String.append b "/" in
  if Js.endsWith b "/v1/" then b else String.append b "v1/".

Definition build_request (configs : MinifluxConfigs) (path : string)
    (query : option URLSearchParams.t) (method : string)
    (body : option string) : Request :=
  mkRequest (String.append (baseUrl configs) path) query method body
    [("content-type", "application/x-www-form-urlencoded");
     auth_header configs].

(** A rejected [fetch] is logged and rethrown as [APIError()]. *)
Definition fetchAPI (configs : MinifluxConfigs) (path : string)
    (query : option URLSearchParams.t) (method : string)
    (body : option string) : M Response :=
  fun s =>
    let rq := build_request configs path query method body in
    match fetch (remote s) rq with
    | (w, Resolved r) => (sent s w rq, Ok r)
    | (w, Rejected) => (console_log (sent s w rq) APIError, Throw APIError)
    end.

(** *** [fetchEntries] *)

(** Lines 103-107: which cursor parameter the next request carries. *)
Definition place_cursor (fetchNew : bool) (configs : MinifluxConfigs)
    (continueId : option Z) (q : URLSearchParams.t) : URLSearchParams.t :=
  match continueId with
  | Some c =>
      if Js.truthy_number c
      then URLSearchParams.set q "before_entry_id" (Js.string_of_number c)
      else if fetchNew
           then URLSearchParams.set q "after_entry_id"
                  (Js.template (option_map Js.string_of_number (lastId configs)))
           else q
  | None =>
      if fetchNew
      then URLSearchParams.set q "after_entry_id"
             (Js.template (option_map Js.string_of_number (lastId configs)))
      else q
  end.

(** How one pass through the [try] block ends: by [break] (empty page,
    or anything caught), or by reaching the loop condition with a new
    accumulator, cursor and response. *)
Inductive Pass :=
| Break
| Reached (items : list Entry) (continueId : option Z) (resp : Entries).

Definition next_cursor (fetchNew : bool) (items : list Entry)
    (page : list Entry) : option Entry :=
  if fetchNew then Js.lastOf items else Js.lastOf page.

Definition try_page (fetchNew : bool) (items : list Entry)
    (q : URLSearchParams.t) : Sys -> Sys * Pass :=
  fun s =>
    match fetchAPI (service s) "entries?" (Some q) "GET" None s with
    | (s', Throw _) => (s', Break)
    | (s', Ok r) =>
        match resp_json r with
        | PEntries e =>
            match entries e with
            | [] => (s', Break)
            | _ :: _ =>
                let items' := items ++ entries e in
                match next_cursor fetchNew items' (entries e) with
                | Some x => (s', Reached items' (Some (id x)) e)
                | None => (s', Break)
                end
            end
        | _ => (s', Break)
        end
    end.

Fixpoint fetchLoop (fuel : nat) (fetchNew : bool) (pageLimit : Z)
    (continueId : option Z) (q : URLSearchParams.t) (items : list Entry)
    (s : Sys) : option (Sys * (list Entry * URLSearchParams.t)) :=
  match fuel with
  | O => None
  | S fuel' =>
      let q' := place_cursor fetchNew (service s) continueId q in
      match try_page fetchNew items q' s with
      | (s', Break) => Some (s', (items, q'))
      | (s', Reached items' continueId' resp) =>
          if (pageLimit <=? total resp)
             && (Z.of_nat (List.length items') <? fetchLimit (service s'))
          then fetchLoop fuel' fetchNew pageLimit continueId' q' items' s'
          else Some (s', (items', q'))
      end
  end.

(** [configs] is the object [getState().service]; the query parameters
    are the caller's object, handed back as they are left. *)
Definition fetchEntries (fuel : nat) (q : URLSearchParams.t)
    (fetchNew : bool) (pageLimit : Z)
    (s : Sys) : option (Sys * (list Entry * URLSearchParams.t)) :=
  let configs := service s in
  let s0 :=
    with_service s
      (set_lastId configs
         (Some (match lastId configs with Some n => n | None => 0 end))) in
  let q0 := URLSearchParams.set q "limit" (Js.string_of_number pageLimit) in
  fetchLoop fuel fetchNew pageLimit None q0 [] s0.

Definition default_page_limit : Z := 125.

(** *** The hooks addressed to one item *)

Definition status_body (refs : string) (indent : nat) (target : string)
  : string :=
  Js.cat ["{"; Js.nl;
          Js.spaces (indent + 4); Js.dq; "entry_ids"; Js.dq; ": [";
          refs; "],"; Js.nl;
          Js.spaces (indent + 4); Js.dq; "status"; Js.dq; ": ";
          Js.dq; target; Js.dq; Js.nl;
          Js.spaces indent; "}"].

Definition markRead (item : RSSItem) : M unit :=
  if negb (Js.truthy (item_serviceRef item)) then ret tt
  else
    let body := status_body (Js.template (item_serviceRef item)) 8 "read" in
    s <- getState ;;
    response <- fetchAPI (service s) "entries" None "PUT" (Some body) ;;
    if negb (resp_status response =? 204) then throw APIError
    else ret tt.

Definition markUnread (item : RSSItem) : M unit :=
  if negb (Js.truthy (item_serviceRef item)) then ret tt
  else
    let body :=
      status_body (Js.template (item_serviceRef item)) 8 "unread" in
    s <- getState ;;
    fetchAPI (service s) "entries" None "PUT" (Some body) ;;;
    ret tt.

Definition bookmark_path (item : RSSItem) : string :=
  Js.cat ["entries/"; Js.template (item_serviceRef item); "/bookmark"].

Definition star (item : RSSItem) : M unit :=
  if negb (Js.truthy (item_serviceRef item)) then ret tt
  else
    s <- getState ;;
    fetchAPI (service s) (bookmark_path item) None "PUT" None ;;;
    ret tt.

Definition unstar (item : RSSItem) : M unit :=
  if negb (Js.truthy (item_serviceRef item)) then ret tt
  else
    s <- getState ;;
    fetchAPI (service s) (bookmark_path item) None "PUT" None ;;;
    ret tt.

(** *** [markAllRead] *)

(** The [where] clause of the dated branch, on one row. *)
Definition selected (sids : list Z) (date : Z) (before : bool)
    (row : RSSItem) : bool :=
  existsb (Z.eqb (item_source row)) sids
  && negb (item_hasRead row)
  && (match item_serviceRef row with Some _ => true | None => false end)
  && (if before then item_date row <=? date else date <=? item_date row).

Definition row_ref (row : RSSItem) : string :=
  match item_serviceRef row with
  | Some r => r
  | None => EmptyString
  end.

Definition source_of_sid (srcs : list (RSSSource Rule)) (n : Z)
  : option (RSSSource Rule) :=
  find (fun src => sid src =? n) srcs.

Definition feed_path (srcs : list (RSSSource Rule)) (n : Z) : string :=
  Js.cat ["feeds/";
          Js.template (match source_of_sid srcs n with
                       | Some src => source_serviceRef src
                       | None => None
                       end);
          "/mark-all-as-read"].

(** [Promise.all] over the per-feed calls: every call is started, in the
    order of [sids]; the whole rejects when one of them does. *)
Fixpoint all_feeds_read (configs : MinifluxConfigs)
    (srcs : list (RSSSource Rule)) (sids : list Z) : M unit :=
  match sids with
  | [] => ret tt
  | n :: rest =>
      fun s =>
        match fetchAPI configs (feed_path srcs n) None "PUT" None s with
        | (s', Ok _) => all_feeds_read configs srcs rest s'
        | (s', Throw e) =>
            (fst (all_feeds_read configs srcs rest s'), Throw e)
        end
  end.

(** The dated branch takes the rows as the store returns them; the model
    reads the table in the order of [itemsDB], and what is proved of the
    ids in the request is proved up to their order. *)
Definition markAllRead (sids : list Z) (date : option Z) (before : bool)
  : M unit :=
  state <- getState ;;
  let configs := service state in
  match date with
  | Some d =>
      let rows := filter (selected sids d before) (itemsDB state) in
      let refs := map row_ref rows in
      let body := status_body (Js.join refs) 12 "read" in
      fetchAPI configs "entries" None "PUT" (Some body) ;;;
      ret tt
  | None => all_feeds_read configs (sources state) sids
  end.

(** *** [authenticate] and [updateSources] *)

Definition authenticate (configs : MinifluxConfigs) : M bool :=
  response <- fetchAPI configs "me" None "GET" None ;;
  match resp_json response with
  | PErrorMessage m => ret (negb (Js.truthy_string m))
  | PInvalid | PUndefined => throw RuntimeError
  | _ => ret true
  end.

(** What [updateSources] builds for one feed: the new source and its
    entry of the groups map. *)
Record ImportedSource := mkImported {
  imported_url : string;
  imported_name : string;
  imported_serviceRef : string
}.

Definition import_feed (f : Feed) : ImportedSource :=
  mkImported (feed_url f) (feed_title f) (Js.string_of_number (feed_id f)).

Definition groups_of (fs : list Feed) : JsMap.t string :=
  fold_left
    (fun m f =>
       JsMap.set m (Js.string_of_number (feed_id f))
                 (category_title (feed_category f)))
    fs [].

Definition import_groups (configs : MinifluxConfigs) : M unit :=
  if importGroups configs
  then
    response <- fetchAPI configs "categories" None "GET" None ;;
    match resp_json response with
    | PCategories cs =>
        fun s => (dispatch_groups s (map category_title cs), Ok tt)
    | PFeeds fs =>
        fun s => (dispatch_groups s (map feed_title fs), Ok tt)
    | _ => throw RuntimeError
    end
  else ret tt.

Definition updateSources
  : M (list ImportedSource * option (JsMap.t string)) :=
  s <- getState ;;
  let configs := service s in
  import_groups configs ;;;
  feedResponse <- fetchAPI configs "feeds" None "GET" None ;;
  match resp_json feedResponse with
  | PUndefined => throw APIError
  | PFeeds fs =>
      ret (map import_feed fs,
           if importGroups configs then Some (groups_of fs) else None)
  | PCategories [] =>
      ret ([], if importGroups configs then Some [] else None)
  | _ => throw RuntimeError
  end.

(** *** [fetchItems] *)

(** A hook applied to an item is a thunk: nothing is sent until a
    dispatcher runs it. *)
Inductive Hook := HookMarkRead | HookMarkUnread | HookStar | HookUnstar.

Record Thunk := mkThunk {
  thunk_hook : Hook;
  thunk_item : RSSItem
}.

Definition run_thunk (t : Thunk) : M unit :=
  match thunk_hook t with
  | HookMarkRead => markRead (thunk_item t)
  | HookMarkUnread => markUnread (thunk_item t)
  | HookStar => star (thunk_item t)
  | HookUnstar => unstar (thunk_item t)
  end.

Definition build_source_map (srcs : list (RSSSource Rule))
  : JsMap.t (RSSSource Rule) :=
  fold_left
    (fun m src =>
       if Js.truthy (source_serviceRef src)
       then JsMap.set m (Js.template (source_serviceRef src)) src
       else m)
    srcs [].

Definition with_thumbnail (item : Entry) (origin : string)
    (parsedItem : RSSItem) : RSSItem :=
  match querySelectorImgSrc (content item) origin with
  | Some src =>
      if Js.truthy_string src then set_thumb parsedItem (Some src)
      else parsedItem
  | None => parsedItem
  end.

(** Lines 243-251: the thunks built after the rules ran.  The source
    drops the value of both calls. *)
Definition rule_thunks (item : Entry) (parsedItem : RSSItem) : list Thunk :=
  (if negb (Bool.eqb (is_read (status item)) (item_hasRead parsedItem))
   then [mkThunk HookMarkRead parsedItem] else [])
  ++
  (if negb (Bool.eqb (starred item) (item_starred parsedItem))
   then [mkThunk HookMarkUnread parsedItem] else []).

(** The callback of [items.map]: the mapped item, with the thunks it
    built on the way. *)
Definition parse_item (sourceMap : JsMap.t (RSSSource Rule)) (now : Z)
    (item : Entry) : Res (RSSItem * list Thunk) :=
  match JsMap.get sourceMap (Js.string_of_number (feed_id (feed item))) with
  | None => Throw RuntimeError
  | Some source =>
      let parsedItem :=
        mkItem (sid source) (title item) (url item)
               (parseDate (match published_at item with
                           | Some p => p
                           | None => created_at item
                           end))
               now (content item) (trim (htmlDecode (content item)))
               (author item) (is_read (status item)) (starred item)
               false false (Some (Js.string_of_number (id item))) None in
      match urlOrigin (item_link parsedItem) with
      | None => Throw RuntimeError
      | Some origin =>
          let parsedItem := with_thumbnail item origin parsedItem in
          match rules source with
          | Some rs =>
              let parsedItem := applyAll rs parsedItem in
              Ok (parsedItem, rule_thunks item parsedItem)
          | None => Ok (parsedItem, [])
          end
      end
  end.

Fixpoint parse_items (sourceMap : JsMap.t (RSSSource Rule)) (now : Z)
    (items : list Entry) : Res (list RSSItem * list Thunk) :=
  match items with
  | [] => Ok ([], [])
  | item :: rest =>
      match parse_item sourceMap now item with
      | Throw e => Throw e
      | Ok (parsed, ts) =>
          match parse_items sourceMap now rest with
          | Throw e => Throw e
          | Ok (parsedRest, tsRest) => Ok (parsed :: parsedRest, ts ++ tsRest)
          end
      end
  end.

(** The array [fetchItems] resolves to, and the thunks its callback
    built and dropped. *)
Record Fetched := mkFetched {
  parsedItems : list RSSItem;
  returned_configs : MinifluxConfigs;
  built_thunks : list Thunk
}.

Definition fetchItems_query : URLSearchParams.t :=
  [("order", "id"); ("direction", "desc")].

Definition fetchItems (fuel : nat) (state : Sys)
  : option (Sys * Res Fetched) :=
  match fetchEntries fuel fetchItems_query true default_page_limit state with
  | None => None
  | Some (s1, (items, _)) =>
      match items with
      | [] => Some (s1, Ok (mkFetched [] (service s1) []))
      | first :: _ =>
          let s2 := with_service s1 (set_lastId (service s1) (Some (id first))) in
          let sourceMap := build_source_map (sources state) in
          match parse_items sourceMap (clock s2) items with
          | Throw e => Some (s2, Throw e)
          | Ok (parsed, ts) =>
              Some (s2, Ok (mkFetched parsed (service s2) ts))
          end
      end
  end.

(** *** [syncItems] *)

(** [new Set(refs)]: first occurrences, in order. *)
Definition set_of (refs : list string) : list string :=
  fold_left
    (fun acc r => if existsb (String.eqb r) acc then acc else acc ++ [r])
    refs [].

Definition syncItems_query : URLSearchParams.t :=
  [("status", "unread"); ("order", "id"); ("direction", "desc")].

Definition entry_ref (e : Entry) : string := Js.string_of_number (id e).

Definition syncItems (fuel : nat) (state : Sys)
  : option (Sys * Res (list string * list string)) :=
  match fetchEntries fuel syncItems_query false default_page_limit state with
  | None => None
  | Some (s1, (unreadItems, q1)) =>
      let q2 := URLSearchParams.delete q1 "status" in
      let q3 := URLSearchParams.delete q2 "before_entry_id" in
      let q4 := URLSearchParams.append q3 "starred" "true" in
      match fetchEntries fuel q4 false default_page_limit s1 with
      | None => None
      | Some (s2, (starredItems, _)) =>
          Some (s2, Ok (set_of (map entry_ref unreadItems),
                        set_of (map entry_ref starredItems)))
      end
  end.

(** *** The public surface, as one type *)

Inductive Operation :=
| OpAuthenticate (configs : MinifluxConfigs)
| OpUpdateSources
| OpFetchItems
| OpSyncItems
| OpMarkRead (item : RSSItem)
| OpMarkUnread (item : RSSItem)
| OpMarkAllRead (sids : list Z) (date : option Z) (before : bool)
| OpStar (item : RSSItem)
| OpUnstar (item : RSSItem).

Definition forget {A : Type} (r : Sys * Res A) : Sys * Res unit :=
  match r with
  | (s, Ok _) => (s, Ok tt)
  | (s, Throw e) => (s, Throw e)
  end.

(** Runs a hook for its effects. *)
Definition perform (fuel : nat) (op : Operation) (s : Sys)
  : option (Sys * Res unit) :=
  match op with
  | OpAuthenticate configs => Some (forget (authenticate configs s))
  | OpUpdateSources => Some (forget (updateSources s))
  | OpFetchItems => option_map forget (fetchItems fuel s)
  | OpSyncItems => option_map forget (syncItems fuel s)
  | OpMarkRead item => Some (markRead item s)
  | OpMarkUnread item => Some (markUnread item s)
  | OpMarkAllRead sids date before => Some (markAllRead sids date before s)
  | OpStar item => Some (star item s)
  | OpUnstar item => Some (unstar item s)
  end.

End Service.

(* ================================================================= *)
(** ** What a remote service may be assumed to do *)

Section Conformance.

Context (P : Platform).

(** The numeric value of a cursor or limit parameter. *)
Definition numeric_param (q : URLSearchParams.t) (name : string)
  : option Z :=
  match URLSearchParams.get q name with
  | Some v => Js.number_of_string v
  | None => None
  end.

(** [page w rq e]: in state [w], request [rq] is answered with the
    entries page [e]. *)
Definition page (w : World) (rq : Request) (q : URLSearchParams.t)
    (e : Entries) : Prop :=
  exists w' r,
    fetch w rq = (w', Resolved r)
    /\ resp_json r = PEntries e
    /\ req_query rq = Some q.

(** A page holds at most [limit] entries. *)
Definition honours_limit : Prop :=
  forall w rq q e n,
    page w rq q e ->
    numeric_param q "limit" = Some n ->
    Z.of_nat (List.length (entries e)) <= n.

(** A page requested after a cursor holds only greater ids. *)
Definition honours_after : Prop :=
  forall w rq q e a x,
    page w rq q e ->
    numeric_param q "after_entry_id" = Some a ->
    In x (entries e) ->
    a < id x.

(** A page requested before a cursor holds only smaller ids. *)
Definition honours_before : Prop :=
  forall w rq q e b x,
    page w rq q e ->
    numeric_param q "before_entry_id" = Some b ->
    In x (entries e) ->
    id x < b.

(** No entry of a page is greater than the first one. *)
Definition newest_first (l : list Entry) : Prop :=
  match l with
  | [] => True
  | x :: rest => Forall (fun y => id y <= id x) rest
  end.

(** A page requested in descending id order starts with its greatest
    id. *)
Definition honours_order : Prop :=
  forall w rq q e,
    page w rq q e ->
    URLSearchParams.get q "order" = Some "id" ->
    URLSearchParams.get q "direction" = Some "desc" ->
    newest_first (entries e).

(** Entry ids start at 1. *)
Definition positive_ids : Prop :=
  forall w rq q e x,
    page w rq q e ->
    In x (entries e) ->
    0 < id x.

End Conformance.

(** What the loop knows about its accumulator and cursor between two
    passes: nothing yet, or a first entry no other exceeds and a
    positive cursor that does not exceed it either. *)
Definition walking (items : list Entry) (c : option Z) : Prop :=
  (items = [] /\ c = None)
  \/ exists h t n,
      items = h :: t
      /\ Forall (fun y => id y <= id h) t
      /\ c = Some n /\ 0 < n <= id h.

(** The cursor a fetch starts from: [configs.lastId ?? 0]. *)
Definition cursor_of (configs : MinifluxConfigs) : Z :=
  match lastId configs with
  | Some n => n
  | None => 0
  end.

(** The greatest id of a list of entries ([0] for none). *)
Definition max_id (l : list Entry) : Z :=
  match l with
  | [] => 0
  | x :: rest => fold_left (fun m y => Z.max m (id y)) rest (id x)
  end.

(* ================================================================= *)
(** ** Concrete platforms *)

Module Demo.

(** A rule is the edit it makes. *)
Definition rule := RSSItem -> RSSItem.

Definition apply_rules (rs : list rule) (i : RSSItem) : RSSItem :=
  fold_left (fun acc r => r acc) rs i.

Definition star_it (i : RSSItem) : RSSItem :=
  mkItem (item_source i) (item_title i) (item_link i) (item_date i)
         (item_fetchedDate i) (item_content i) (item_snippet i)
         (item_creator i) (item_hasRead i) true (item_hidden i)
         (item_notify i) (item_serviceRef i) (item_thumb i).

Definition within (lo hi : option Z) (e : Entry) : bool :=
  (match lo with Some a => a <? id e | None => true end)
  && (match hi with Some b => id e <? b | None => true end).

Definition take (limit : option Z) (l : list Entry) : list Entry :=
  match limit with
  | Some n => firstn (Z.to_nat n) l
  | None => l
  end.

(** The entries endpoint over a table kept newest first: the matching
    rows, cut at the limit, with the count of all matching rows. *)
Definition entries_page (data : list Entry) (q : URLSearchParams.t)
  : Entries :=
  let matching :=
    filter (within (numeric_param q "after_entry_id")
                   (numeric_param q "before_entry_id")) data in
  mkEntries (Z.of_nat (List.length matching))
            (take (numeric_param q "limit") matching).

Definition negative_limit (q : URLSearchParams.t) : bool :=
  match numeric_param q "limit" with
  | Some n => n <? 0
  | None => false
  end.

Definition answer (data : list Entry) (w : unit) (rq : Request)
  : unit * FetchOutcome :=
  match req_query rq with
  | Some q =>
      if negative_limit q
      then (tt, Resolved (mkResponse 400 (PErrorMessage "bad limit")))
      else (tt, Resolved (mkResponse 200 (PEntries (entries_page data q))))
  | None => (tt, Resolved (mkResponse 204 POther))
  end.

(** A reachable service holding [data]. *)
Definition online (data : list Entry) : Platform :=
  {| World := unit;
     Rule := rule;
     fetch := answer data;
     applyAll := apply_rules;
     htmlDecode := fun s => s;
     trim := fun s => s;
     parseDate := fun _ => 0;
     urlOrigin := fun s => Some s;
     querySelectorImgSrc := fun _ _ => None |}.

(** A service that answers every request with the given status. *)
Definition answering (code : Z) : Platform :=
  {| World := unit;
     Rule := rule;
     fetch := fun w _ => (w, Resolved (mkResponse code POther));
     applyAll := apply_rules;
     htmlDecode := fun s => s;
     trim := fun s => s;
     parseDate := fun _ => 0;
     urlOrigin := fun s => Some s;
     querySelectorImgSrc := fun _ _ => None |}.

(** No network: every [fetch] rejects. *)
Definition offline : Platform :=
  {| World := unit;
     Rule := rule;
     fetch := fun w _ => (w, Rejected);
     applyAll := apply_rules;
     htmlDecode := fun s => s;
     trim := fun s => s;
     parseDate := fun _ => 0;
     urlOrigin := fun s => Some s;
     querySelectorImgSrc := fun _ _ => None |}.

(** The order of the table: [a] comes before [b]. *)
Definition newer (a b : Entry) : Prop := id b <= id a.

Definition a_feed : Feed :=
  mkFeed 1 "https://site.example/feed" "Site" (mkCategory "News").

Definition entry (n : Z) : Entry :=
  mkEntry n Unread "t" "https://site.example/post" None "2024-01-01"
          "c" "a" false a_feed.

Definition six : list Entry := map entry [6; 5; 4; 3; 2; 1].

Definition configs (cap : Z) (cursor : option Z) : MinifluxConfigs :=
  mkConfigs "https://rss.example" true "k" cap cursor false.

Definition a_source (rs : option (list rule)) : RSSSource rule :=
  mkSource 10 "https://site.example/feed" "Site" (Some "1") rs.

Definition an_item (ref : option string) (date : Z) (read : bool)
  : RSSItem :=
  mkItem 10 "t" "https://site.example/post" date 0 "c" "c" "a" read false
         false false ref None.

(** What [fetchItems] maps [entry n] to under [a_source], before the
    rules run. *)
Definition mapped (n : Z) : RSSItem :=
  mkItem 10 "t" "https://site.example/post" 0 0 "c" "c" "a" false false
         false false (Some (Js.string_of_number n)) None.

Definition sys (P : Platform) (w : @World P) (c : MinifluxConfigs)
    (srcs : list (RSSSource (@Rule P))) (db : list RSSItem) : @Sys P :=
  mkSys c srcs db w [] [] [] 0.

End Demo.

(** The request that sets the status of one item, and the one that
    toggles its bookmark. *)
Definition status_request (configs : MinifluxConfigs) (item : RSSItem)
    (target : string) : Request :=
  build_request configs "entries" None "PUT"
    (Some (status_body (Js.template (item_serviceRef item)) 8 target)).

Definition bookmark_request (configs : MinifluxConfigs) (item : RSSItem)
  : Request :=
  build_request configs (bookmark_path item) None "PUT" None.

(** The bulk request of [markAllRead] for a list of references. *)
Definition bulk_read_request (configs : MinifluxConfigs)
    (refs : list string) : Request :=
  build_request configs "entries" None "PUT"
    (Some (status_body (Js.join refs) 12 "read")).

(** A computation raises when it ends in [Throw]. *)
Definition raises {P : Platform} {A : Type} (m : M A) (s : Sys) : Prop :=
  exists e, snd (m s) = Throw e.

(* ================================================================= *)
(** ** Vocabulary for what a run sends and leaves alone *)

(** Two configurations of the same account: equal but for the cursor. *)
Definition same_account (c c' : MinifluxConfigs) : Prop :=
  endpoint c = endpoint c'
  /\ apiKeyAuth c = apiKeyAuth c'
  /\ authKey c = authKey c'
  /\ fetchLimit c = fetchLimit c'
  /\ importGroups c = importGroups c'.

(** [sends Q s s']: from [s] to [s'] the requests sent all satisfy [Q],
    the configuration changed in its cursor at most, and the local
    sources, item table and clock did not change. *)
Definition sends {P : Platform} (Q : Request -> Prop) (s s' : Sys) : Prop :=
  same_account (service s') (service s)
  /\ sources s' = sources s
  /\ itemsDB s' = itemsDB s
  /\ clock s' = clock s
  /\ exists added, wire s' = wire s ++ added /\ Forall Q added.

(** The configuration a hook builds its requests from. *)
Definition account_of {P : Platform} (op : Operation) (s : Sys)
  : MinifluxConfigs :=
  match op with
  | OpAuthenticate configs => configs
  | _ => service s
  end.


(** The request of one page. *)
Definition entries_request (configs : MinifluxConfigs)
    (q : URLSearchParams.t) : Request :=
  build_request configs "entries?" (Some q) "GET" None.

(** [qi] carries the parameters of [q], the two cursors aside. *)
Definition passthrough (q qi : URLSearchParams.t) : Prop :=
  forall name,
    name <> "before_entry_id" -> name <> "after_entry_id" ->
    URLSearchParams.get qi name = URLSearchParams.get q name.

(** What one page request of a run started from [q] looks like. *)
Definition of_run (fetchNew : bool) (configs : MinifluxConfigs)
    (q : URLSearchParams.t) (rq : Request) : Prop :=
  exists qi,
    rq = entries_request configs qi
    /\ passthrough q qi
    /\ (fetchNew = false ->
        URLSearchParams.get qi "after_entry_id"
        = URLSearchParams.get q "after_entry_id").

(** The request [rq] carries the parameter [name] with the value [v], or
    does not carry it when [v] is [None]. *)
Definition carries (rq : Request) (name : string) (v : option string)
  : Prop :=
  exists qi, req_query rq = Some qi /\ URLSearchParams.get qi name = v.

(** The request that marks one feed read. *)
Definition feed_request {P : Platform} (configs : MinifluxConfigs)
    (srcs : list (RSSSource Rule)) (n : Z) : Request :=
  build_request configs (feed_path srcs n) None "PUT" None.

(** Ids strictly decreasing along the list. *)
Definition descending (l : list Entry) : Prop :=
  StronglySorted (fun a b => id b < id a) l.

(** A page requested in descending id order is strictly descending. *)
Definition lists_descending (P : Platform) : Prop :=
  forall w rq q e,
    page P w rq q e ->
    URLSearchParams.get q "order" = Some "id" ->
    URLSearchParams.get q "direction" = Some "desc" ->
    descending (entries e).

(* ================================================================= *)
(** ** The version migration [performUpdate] of [src/main/update-scripts.ts] *)

Module Update.

(** The two keys of the settings store the script uses. *)
Record Store := mkStore {
  version : option string;
  useNeDB : option bool
}.

(** What the script asks of the Electron [app]. *)
Record App := mkApp {
  getVersion : string;
  isPackaged : bool
}.

Definition set_version (st : Store) (v : string) : Store :=
  mkStore (Some v) (useNeDB st).

Definition set_useNeDB (st : Store) (b : bool) : Store :=
  mkStore (version st) (Some b).

(** [s.split(".")]. *)
Fixpoint split_dot (s : string) : list string :=
  match s with
  | EmptyString => [EmptyString]
  | String c rest =>
      if Ascii.eqb c "."
      then EmptyString :: split_dot rest
      else match split_dot rest with
           | h :: t => String c h :: t
           | [] => [String c EmptyString]
           end
  end.

Section Migration.

(** [parseInt] of one argument; [None] is [NaN]. *)
Variable parseInt : string -> option Z.

(** [revs[0] === 0 && revs[1] < 8]. *)
Definition before_0_8 (revs : list (option Z)) : bool :=
  (match nth_error revs 0 with
   | Some (Some n) => n =? 0
   | _ => false
   end)
  && (match nth_error revs 1 with
      | Some (Some n) => n <? 8
      | _ => false
      end).

Definition performUpdate (app : App) (store : Store) : Store :=
  let version0 := version store in
  let useNeDB0 := useNeDB store in
  let currentVersion := getVersion app in
  let store1 :=
    match useNeDB0 with
    | None =>
        match version0 with
        | Some v =>
            let revs := map parseInt (split_dot v) in
            set_useNeDB store (before_0_8 revs || negb (isPackaged app))
        | None => set_useNeDB store false
        end
    | Some _ => store
    end in
  match version0 with
  | Some v =>
      if String.eqb v currentVersion then store1
      else set_version store1 currentVersion
  | None => set_version store1 currentVersion
  end.

End Migration.

(** A [parseInt] for the witnesses: plain decimal numerals. *)
Definition decimal (s : string) : option Z := Js.number_of_string s.

End Update.

(** A service that answers the categories and the feeds endpoints with
    the given lists. *)
Module DemoCatalog.

Definition answer (cs : list Category) (fs : list Feed) (w : unit)
    (rq : Request) : unit * FetchOutcome :=
  if Js.endsWith (req_url rq) "/categories"
  then (tt, Resolved (mkResponse 200 (PCategories cs)))
  else if Js.endsWith (req_url rq) "/feeds"
       then (tt, Resolved (mkResponse 200 (PFeeds fs)))
       else (tt, Resolved (mkResponse 404 POther)).

Definition serving (cs : list Category) (fs : list Feed) : Platform :=
  {| World := unit;
     Rule := Demo.rule;
     fetch := answer cs fs;
     applyAll := Demo.apply_rules;
     htmlDecode := fun s => s;
     trim := fun s => s;
     parseDate := fun _ => 0;
     urlOrigin := fun s => Some s;
     querySelectorImgSrc := fun _ _ => None |}.

Definition news : Category := mkCategory "News".
Definition tech : Category := mkCategory "Tech".

Definition two_feeds : list Feed :=
  [mkFeed 1 "https://a.example/feed" "A" news;
   mkFeed 2 "https://b.example/feed" "B" tech].

Definition grouping : MinifluxConfigs :=
  mkConfigs "https://rss.example" true "k" 5 None true.

End DemoCatalog.

(* ================================================================= *)
(** ** Lemmas on the primitives *)

Lemma number_round_trip (n : Z) :
  Js.number_of_string (Js.string_of_number n) = Some n.
Proof.
  unfold Js.number_of_string, Js.string_of_number.
  rewrite NilZero.isi.
  - simpl. now rewrite DecimalZ.of_to.
  - destruct n; simpl; try discriminate.
    intros [= E]. now apply Unsigned.to_uint_nonnil in E.
  - destruct n; simpl; try discriminate.
    intros [= E]. now apply Unsigned.to_uint_nonnil in E.
Qed.

Lemma lastOf_app {A : Type} (xs ys : list A) :
  ys <> [] -> Js.lastOf (xs ++ ys) = Js.lastOf ys.
Proof.
  intros Hys. induction xs as [|x xs IH]; [reflexivity|].
  simpl. destruct (xs ++ ys) eqn:E.
  - apply app_eq_nil in E. now destruct E.
  - exact IH.
Qed.

Lemma lastOf_In {A : Type} (xs : list A) (x : A) :
  Js.lastOf xs = Some x -> In x xs.
Proof.
  induction xs as [|y ys IH]; simpl; [discriminate|].
  destruct ys as [|z zs].
  - intros [= ->]. now left.
  - intros H. right. now apply IH.
Qed.

Module ParamFacts.

Import URLSearchParams.

Lemma get_delete_other (q : t) (name other : string) :
  name <> other -> get (delete q name) other = get q other.
Proof.
  intros Hne. unfold get, delete.
  induction q as [|[k v] q IH]; simpl; [reflexivity|].
  destruct (String.eqb_spec k name) as [->|Hk]; simpl.
  - destruct (String.eqb_spec name other); [contradiction|]. exact IH.
  - destruct (String.eqb_spec k other); [reflexivity|]. exact IH.
Qed.

Lemma get_set_same (q : t) (name value : string) :
  get (set q name value) name = Some value.
Proof.
  induction q as [|[k v] q IH]; simpl.
  - unfold get. simpl. now rewrite String.eqb_refl.
  - destruct (String.eqb_spec k name) as [->|Hk].
    + unfold get. simpl. now rewrite String.eqb_refl.
    + unfold get in *. simpl.
      destruct (String.eqb_spec k name); [contradiction|]. exact IH.
Qed.

Lemma get_set_other (q : t) (name value other : string) :
  name <> other -> get (set q name value) other = get q other.
Proof.
  intros Hne.
  induction q as [|[k v] q IH]; simpl.
  - unfold get. simpl.
    destruct (String.eqb_spec name other); [contradiction|reflexivity].
  - destruct (String.eqb_spec k name) as [->|Hk].
    + pose proof (get_delete_other q name other Hne) as Hd.
      unfold get in *. simpl.
      destruct (String.eqb_spec name other); [contradiction|]. exact Hd.
    + unfold get in *. simpl.
      destruct (String.eqb_spec k other); [reflexivity|]. exact IH.
Qed.

End ParamFacts.

(* ================================================================= *)
(** ** Lemmas on the transport and on one page *)

Section Facts.

Context {P : Platform}.

Lemma fetchAPI_service configs path query method body s :
  service (fst (fetchAPI configs path query method body s)) = service s.
Proof.
  unfold fetchAPI.
  destruct (fetch _ _) as [w [r|]]; reflexivity.
Qed.

Lemma fetchAPI_wire configs path query method body s :
  wire (fst (fetchAPI configs path query method body s))
  = wire s ++ [build_request configs path query method body].
Proof.
  unfold fetchAPI.
  destruct (fetch _ _) as [w [r|]]; reflexivity.
Qed.

Lemma fetchAPI_result configs path query method body s :
  snd (fetchAPI configs path query method body s)
  = match snd (fetch (remote s)
                 (build_request configs path query method body)) with
    | Resolved r => Ok r
    | Rejected => Throw APIError
    end.
Proof.
  unfold fetchAPI.
  destruct (fetch _ _) as [w [r|]]; reflexivity.
Qed.

(** What reaching the loop condition tells about the pass. *)
Lemma try_page_reached fetchNew items q s s' items' c resp :
  try_page fetchNew items q s = (s', Reached items' c resp) ->
  page P (remote s)
       (build_request (service s) "entries?" (Some q) "GET" None) q resp
  /\ entries resp <> []
  /\ items' = items ++ entries resp
  /\ (exists x, Js.lastOf (entries resp) = Some x /\ c = Some (id x))
  /\ service s' = service s.
Proof.
  unfold try_page, fetchAPI.
  destruct (fetch _ _) as [w [r|]] eqn:Ef; [|discriminate].
  destruct (resp_json r) as [e| | | | | |] eqn:Ej; try discriminate.
  destruct (entries e) as [|x xs] eqn:Ee; [discriminate|].
  destruct (next_cursor _ _ _) as [y|] eqn:En; [|discriminate].
  intros [= <- <- <- <-].
  split; [|split; [|split; [|split]]].
  - exists w, r. now repeat split.
  - rewrite Ee. discriminate.
  - now rewrite Ee.
  - exists y. split; [|reflexivity].
    rewrite Ee. unfold next_cursor in En.
    destruct fetchNew; [|exact En].
    rewrite lastOf_app in En by discriminate. exact En.
  - reflexivity.
Qed.

Lemma try_page_service fetchNew items q s :
  service (fst (try_page fetchNew items q s)) = service s.
Proof.
  unfold try_page.
  pose proof (fetchAPI_service (service s) "entries?" (Some q) "GET" None s)
    as Hs.
  destruct (fetchAPI _ _ _ _ _ s) as [s' [r|e]]; simpl in *; [|exact Hs].
  destruct (resp_json r); try exact Hs.
  destruct (entries e); [exact Hs|].
  destruct (next_cursor _ _ _); exact Hs.
Qed.

Lemma place_cursor_keeps fetchNew configs c q name :
  name <> "before_entry_id" -> name <> "after_entry_id" ->
  URLSearchParams.get (place_cursor fetchNew configs c q) name
  = URLSearchParams.get q name.
Proof.
  intros Hb Ha. unfold place_cursor.
  destruct c as [n|]; [destruct (Js.truthy_number n)|];
    try destruct fetchNew; try reflexivity;
    apply ParamFacts.get_set_other; congruence.
Qed.

(** *** The loop of [fetchEntries] *)

Lemma fetchLoop_service fuel :
  forall fetchNew pageLimit c q items s s' out,
    fetchLoop fuel fetchNew pageLimit c q items s = Some (s', out) ->
    service s' = service s.
Proof.
  induction fuel as [|fuel IH]; intros fetchNew pageLimit c q items s s' out;
    simpl; [discriminate|].
  pose proof (try_page_service fetchNew items
                (place_cursor fetchNew (service s) c q) s) as Hs.
  destruct (try_page _ _ _ s) as [s1 [|items' c' resp]]; simpl in Hs.
  - intros [= <- _]. exact Hs.
  - destruct (_ && _).
    + intros H. apply IH in H. congruence.
    + intros [= <- _]. exact Hs.
Qed.

(** Every pass that continues makes the accumulator longer, and
    continues only below the cap: the cap bounds the passes. *)
Lemma fetchLoop_returns fuel :
  forall fetchNew pageLimit c q items s,
    (Z.to_nat (fetchLimit (service s) - Z.of_nat (List.length items))
     < fuel)%nat ->
    exists r, fetchLoop fuel fetchNew pageLimit c q items s = Some r.
Proof.
  induction fuel as [|fuel IH]; intros fetchNew pageLimit c q items s Hfuel;
    [lia|].
  simpl.
  destruct (try_page _ _ _ s) as [s1 [|items' c' resp]] eqn:Et.
  - eexists. reflexivity.
  - destruct (_ && _) eqn:Ec; [|eexists; reflexivity].
    apply try_page_reached in Et.
    destruct Et as (_ & Hne & -> & _ & Hs).
    apply andb_true_iff in Ec. destruct Ec as [_ Hlt].
    apply Z.ltb_lt in Hlt.
    apply IH. rewrite Hs in *.
    rewrite length_app in *.
    destruct (entries resp); [contradiction|]. simpl in *. lia.
Qed.

(** More fuel does not change an answer. *)
Lemma fetchLoop_fuel_mono fuel :
  forall fuel' fetchNew pageLimit c q items s r,
    (fuel <= fuel')%nat ->
    fetchLoop fuel fetchNew pageLimit c q items s = Some r ->
    fetchLoop fuel' fetchNew pageLimit c q items s = Some r.
Proof.
  induction fuel as [|fuel IH];
    intros fuel' fetchNew pageLimit c q items s r Hle; simpl; [discriminate|].
  destruct fuel' as [|fuel']; [lia|]. simpl.
  destruct (try_page _ _ _ s) as [s1 [|items' c' resp]]; [trivial|].
  destruct (_ && _); [|trivial].
  apply IH. lia.
Qed.

Lemma fetchLoop_bound fuel :
  forall fetchNew pageLimit c q items s s' out q',
    honours_limit P ->
    numeric_param q "limit" = Some pageLimit ->
    Z.of_nat (List.length items) <= Z.max 0 (fetchLimit (service s) - 1) ->
    fetchLoop fuel fetchNew pageLimit c q items s = Some (s', (out, q')) ->
    Z.of_nat (List.length out)
    <= Z.max 0 (fetchLimit (service s) - 1) + Z.max 0 pageLimit.
Proof.
  induction fuel as [|fuel IH];
    intros fetchNew pageLimit c q items s s' out q' Hlim Hq Hitems;
    simpl; [discriminate|].
  set (q1 := place_cursor fetchNew (service s) c q).
  assert (Hq1 : numeric_param q1 "limit" = Some pageLimit).
  { unfold numeric_param, q1.
    rewrite place_cursor_keeps by discriminate. exact Hq. }
  destruct (try_page _ _ _ s) as [s1 [|items' c' resp]] eqn:Et.
  - intros [= _ <- _]. lia.
  - apply try_page_reached in Et.
    destruct Et as (Hpage & _ & -> & _ & Hs).
    pose proof (Hlim _ _ _ _ _ Hpage Hq1) as Hlen.
    destruct (_ && _) eqn:Ec.
    + intros H. rewrite <- Hs.
      apply (IH _ _ _ _ _ _ _ _ _ Hlim Hq1) in H; [exact H|].
      apply andb_true_iff in Ec. destruct Ec as [_ Hlt].
      apply Z.ltb_lt in Hlt. lia.
    + intros [= _ <- _]. rewrite length_app. lia.
Qed.

(** In incremental mode every request of the loop carries the
    persisted cursor as [after_entry_id]. *)
Lemma place_cursor_after c q configs cur :
  lastId configs = Some cur ->
  (forall n, c = Some n -> Js.truthy_number n = true ->
             numeric_param q "after_entry_id" = Some cur) ->
  numeric_param (place_cursor true configs c q) "after_entry_id" = Some cur.
Proof.
  intros Hcur Hc. unfold place_cursor, numeric_param. rewrite Hcur. simpl.
  destruct c as [n|].
  - destruct (Js.truthy_number n) eqn:Et.
    + rewrite ParamFacts.get_set_other by discriminate.
      now apply (Hc n).
    + rewrite ParamFacts.get_set_same. apply number_round_trip.
  - rewrite ParamFacts.get_set_same. apply number_round_trip.
Qed.

Lemma place_cursor_before fetchNew c q configs n :
  c = Some n -> 0 < n ->
  numeric_param (place_cursor fetchNew configs c q) "before_entry_id"
  = Some n.
Proof.
  intros -> Hn. unfold place_cursor, numeric_param, Js.truthy_number.
  destruct (Z.eqb_spec n 0); [lia|]. simpl.
  rewrite ParamFacts.get_set_same. apply number_round_trip.
Qed.

Lemma fetchLoop_after fuel :
  forall pageLimit c q items s s' out q' cur,
    honours_after P ->
    lastId (service s) = Some cur ->
    (forall n, c = Some n -> Js.truthy_number n = true ->
               numeric_param q "after_entry_id" = Some cur) ->
    fetchLoop fuel true pageLimit c q items s = Some (s', (out, q')) ->
    forall x, In x out -> In x items \/ cur < id x.
Proof.
  induction fuel as [|fuel IH];
    intros pageLimit c q items s s' out q' cur Hafter Hcur Hc;
    simpl; [discriminate|].
  pose proof (place_cursor_after c q (service s) cur Hcur Hc) as Hq1.
  set (q1 := place_cursor true (service s) c q) in *.
  destruct (try_page _ _ _ s) as [s1 [|items' c' resp]] eqn:Et.
  - intros [= _ <- _] x Hx. now left.
  - apply try_page_reached in Et.
    destruct Et as (Hpage & _ & -> & _ & Hs).
    assert (Hnew : forall x, In x (items ++ entries resp) ->
                             In x items \/ cur < id x).
    { intros x Hx. apply in_app_or in Hx. destruct Hx as [Hx|Hx].
      - now left.
      - right. exact (Hafter _ _ _ _ _ _ Hpage Hq1 Hx). }
    destruct (_ && _).
    + intros H x Hx.
      assert (Hcur1 : lastId (service s1) = Some cur) by now rewrite Hs.
      destruct (IH _ _ _ _ _ _ _ _ cur Hafter Hcur1 (fun _ _ _ => Hq1) H x Hx)
        as [Hin|Hlt]; [now apply Hnew|now right].
    + intros [= _ <- _]. exact Hnew.
Qed.

Lemma walking_newest_first items c :
  walking items c -> newest_first items.
Proof.
  intros [[-> _]|(h & t & n & -> & Hall & _)]; simpl; trivial.
Qed.

Lemma walking_step fetchNew items c q s resp x :
  honours_before P -> honours_order P -> positive_ids P ->
  URLSearchParams.get q "order" = Some "id" ->
  URLSearchParams.get q "direction" = Some "desc" ->
  walking items c ->
  page P (remote s)
       (build_request (service s) "entries?"
          (Some (place_cursor fetchNew (service s) c q)) "GET" None)
       (place_cursor fetchNew (service s) c q) resp ->
  Js.lastOf (entries resp) = Some x ->
  walking (items ++ entries resp) (Some (id x)).
Proof.
  intros Hbefore Horder Hpos Ho Hd Hw Hpage Hlast.
  pose proof (lastOf_In _ _ Hlast) as Hx.
  pose proof (Hpos _ _ _ _ _ Hpage Hx) as Hxpos.
  right. destruct Hw as [[-> ->]|(h & t & n & -> & Hall & -> & Hn)].
  - assert (Hnf : newest_first (entries resp)).
    { apply (Horder _ _ _ _ Hpage);
        rewrite place_cursor_keeps by discriminate; assumption. }
    simpl. destruct (entries resp) as [|h t]; [contradiction|].
    exists h, t, (id x). repeat split; trivial.
    simpl in Hnf. destruct Hx as [<-|Hx]; [lia|].
    rewrite Forall_forall in Hnf. now apply Hnf.
  - assert (Hq : numeric_param (place_cursor fetchNew (service s) (Some n) q)
                   "before_entry_id" = Some n)
      by (apply place_cursor_before; [reflexivity|lia]).
    assert (Hsmall : forall y, In y (entries resp) -> id y < n)
      by (intros y Hy; exact (Hbefore _ _ _ _ _ _ Hpage Hq Hy)).
    exists h, (t ++ entries resp), (id x). repeat split; trivial.
    + apply Forall_app. split; [exact Hall|].
      apply Forall_forall. intros y Hy. apply Hsmall in Hy. lia.
    + apply Hsmall in Hx. lia.
Qed.

Lemma fetchLoop_newest_first fuel :
  forall fetchNew pageLimit c q items s s' out q',
    honours_before P -> honours_order P -> positive_ids P ->
    URLSearchParams.get q "order" = Some "id" ->
    URLSearchParams.get q "direction" = Some "desc" ->
    walking items c ->
    fetchLoop fuel fetchNew pageLimit c q items s = Some (s', (out, q')) ->
    newest_first out.
Proof.
  induction fuel as [|fuel IH];
    intros fetchNew pageLimit c q items s s' out q' Hb Ho Hp Hord Hdir Hw;
    simpl; [discriminate|].
  destruct (try_page _ _ _ s) as [s1 [|items' c' resp]] eqn:Et.
  - intros [= _ <- _]. exact (walking_newest_first _ _ Hw).
  - apply try_page_reached in Et.
    destruct Et as (Hpage & _ & -> & (x & Hlast & ->) & Hs).
    pose proof (walking_step _ _ _ _ _ _ _ Hb Ho Hp Hord Hdir Hw Hpage Hlast)
      as Hw'.
    destruct (_ && _).
    + apply IH; trivial;
        rewrite place_cursor_keeps by discriminate; assumption.
    + intros [= _ <- _]. exact (walking_newest_first _ _ Hw').
Qed.

Lemma max_id_newest_first h t :
  newest_first (h :: t) -> max_id (h :: t) = id h.
Proof.
  simpl. generalize (id h). intros m Hall.
  induction t as [|y t IH]; simpl; [reflexivity|].
  inversion Hall as [|? ? Hy Ht]; subst.
  rewrite Z.max_l by exact Hy. now apply IH.
Qed.


(** *** The configuration object under the hooks *)

Lemma fetchEntries_service fuel q fetchNew pageLimit (s s' : Sys) out :
  fetchEntries fuel q fetchNew pageLimit s = Some (s', out) ->
  service s' = set_lastId (service s) (Some (cursor_of (service s))).
Proof.
  unfold fetchEntries. intros H.
  apply fetchLoop_service in H. exact H.
Qed.

Lemma fetchEntries_returns fuel q fetchNew pageLimit (s : Sys) :
  (Z.to_nat (fetchLimit (service s)) < fuel)%nat ->
  exists r, fetchEntries fuel q fetchNew pageLimit s = Some r.
Proof.
  intros Hfuel. unfold fetchEntries.
  apply fetchLoop_returns. simpl. rewrite Z.sub_0_r. exact Hfuel.
Qed.

Lemma bind_service {A B : Type} (m : M A) (k : A -> M B) (s : Sys) :
  (forall s0, service (fst (m s0)) = service s0) ->
  (forall a s0, service (fst (k a s0)) = service s0) ->
  service (fst (bind m k s)) = service s.
Proof.
  intros Hm Hk. unfold bind.
  specialize (Hm s). destruct (m s) as [s1 [a|e]]; simpl in *.
  - now rewrite Hk.
  - exact Hm.
Qed.

Lemma all_feeds_read_service configs srcs sids :
  forall s : Sys,
    service (fst (all_feeds_read configs srcs sids s)) = service s.
Proof.
  induction sids as [|n rest IH]; intros s; simpl; [reflexivity|].
  pose proof (fetchAPI_service configs (feed_path srcs n) None "PUT" None s)
    as Hs.
  destruct (fetchAPI _ _ _ _ _ s) as [s1 [r|e]]; simpl in *.
  - now rewrite IH.
  - now rewrite IH.
Qed.

Ltac frame_service :=
  repeat first
    [ reflexivity
    | apply fetchAPI_service
    | apply all_feeds_read_service
    | apply bind_service; intros
    | match goal with
      | |- context [if ?b then _ else _] => destruct b
      | |- context [match ?x with _ => _ end] => destruct x
      end ].

Lemma markRead_service item (s : Sys) :
  service (fst (markRead item s)) = service s.
Proof. unfold markRead. frame_service. Qed.

Lemma markUnread_service item (s : Sys) :
  service (fst (markUnread item s)) = service s.
Proof. unfold markUnread. frame_service. Qed.

Lemma star_service item (s : Sys) :
  service (fst (star item s)) = service s.
Proof. unfold star. frame_service. Qed.

Lemma unstar_service item (s : Sys) :
  service (fst (unstar item s)) = service s.
Proof. unfold unstar. frame_service. Qed.

Lemma markAllRead_service sids date before (s : Sys) :
  service (fst (markAllRead sids date before s)) = service s.
Proof. unfold markAllRead. frame_service. Qed.

Lemma authenticate_service configs (s : Sys) :
  service (fst (authenticate configs s)) = service s.
Proof. unfold authenticate. frame_service. Qed.

Lemma updateSources_service (s : Sys) :
  service (fst (updateSources s)) = service s.
Proof. unfold updateSources, import_groups. frame_service. Qed.

Lemma forget_service {A : Type} (r : Sys * Res A) :
  service (fst (forget r)) = service (fst r).
Proof. destruct r as [s [a|e]]; reflexivity. Qed.

End Facts.

(* ================================================================= *)
(** ** The concrete service conforms *)

Module DemoFacts.

Import Demo.

Lemma page_online data w rq q e :
  page (online data) w rq q e ->
  negative_limit q = false /\ e = entries_page data q.
Proof.
  intros (w' & r & Hf & Hj & Hq).
  simpl in Hf. unfold answer in Hf. rewrite Hq in Hf.
  destruct (negative_limit q).
  - injection Hf as _ <-. discriminate.
  - injection Hf as _ <-. simpl in Hj. injection Hj as <-. now split.
Qed.

Lemma In_take limit l x : In x (take limit l) -> In x l.
Proof.
  unfold take. destruct limit as [n|]; [|exact (fun H => H)].
  intros H. rewrite <- (firstn_skipn (Z.to_nat n) l).
  apply in_or_app. now left.
Qed.

Lemma online_honours_limit data : honours_limit (online data).
Proof.
  intros w rq q e n Hp Hn.
  apply page_online in Hp. destruct Hp as [Hneg ->].
  unfold negative_limit in Hneg. rewrite Hn in Hneg.
  apply Z.ltb_ge in Hneg.
  simpl. rewrite Hn. simpl.
  pose proof (firstn_le_length (Z.to_nat n)
                (filter (within (numeric_param q "after_entry_id")
                                (numeric_param q "before_entry_id")) data)).
  lia.
Qed.

Lemma online_honours_after data : honours_after (online data).
Proof.
  intros w rq q e a x Hp Ha Hx.
  apply page_online in Hp. destruct Hp as [_ ->].
  simpl in Hx. apply In_take in Hx. apply filter_In in Hx.
  destruct Hx as [_ Hx]. rewrite Ha in Hx. unfold within in Hx.
  apply andb_true_iff in Hx. destruct Hx as [Hx _].
  now apply Z.ltb_lt in Hx.
Qed.

Lemma online_honours_before data : honours_before (online data).
Proof.
  intros w rq q e b x Hp Hb Hx.
  apply page_online in Hp. destruct Hp as [_ ->].
  simpl in Hx. apply In_take in Hx. apply filter_In in Hx.
  destruct Hx as [_ Hx]. rewrite Hb in Hx. unfold within in Hx.
  apply andb_true_iff in Hx. destruct Hx as [_ Hx].
  now apply Z.ltb_lt in Hx.
Qed.

Lemma sorted_filter f (l : list Entry) :
  StronglySorted newer l -> StronglySorted newer (filter f l).
Proof.
  induction 1 as [|x l Hs IH Hall]; simpl; [constructor|].
  destruct (f x); [|exact IH].
  constructor; [exact IH|].
  apply Forall_forall. intros y Hy. apply filter_In in Hy.
  rewrite Forall_forall in Hall. now apply Hall.
Qed.

Lemma sorted_take limit (l : list Entry) :
  StronglySorted newer l -> StronglySorted newer (take limit l).
Proof.
  unfold take. destruct limit as [n|]; [|exact (fun H => H)].
  intros Hs. revert l Hs.
  induction (Z.to_nat n) as [|k IH]; intros l Hs; simpl; [constructor|].
  destruct l as [|x l]; [constructor|].
  apply StronglySorted_inv in Hs. destruct Hs as [Hs Hall].
  constructor; [now apply IH|].
  apply Forall_forall. intros y Hy.
  rewrite Forall_forall in Hall. apply Hall.
  now apply (In_take (Some (Z.of_nat k))); simpl; rewrite Nat2Z.id.
Qed.

Lemma online_honours_order data :
  StronglySorted newer data -> honours_order (online data).
Proof.
  intros Hs w rq q e Hp _ _.
  apply page_online in Hp. destruct Hp as [_ ->]. simpl.
  pose proof (sorted_take (numeric_param q "limit") _
                (sorted_filter
                   (within (numeric_param q "after_entry_id")
                           (numeric_param q "before_entry_id")) _ Hs)) as H.
  destruct (take _ _) as [|x l]; simpl; [trivial|].
  apply StronglySorted_inv in H. now destruct H.
Qed.

Lemma online_positive_ids data :
  Forall (fun e => 0 < id e) data -> positive_ids (online data).
Proof.
  intros Hall w rq q e x Hp Hx.
  apply page_online in Hp. destruct Hp as [_ ->].
  simpl in Hx. apply In_take in Hx. apply filter_In in Hx.
  rewrite Forall_forall in Hall. now apply Hall.
Qed.

Lemma six_sorted : StronglySorted newer six.
Proof.
  unfold six. simpl.
  repeat (constructor; [|repeat constructor; unfold newer; simpl; lia]).
  constructor.
Qed.

Lemma six_positive : Forall (fun e => 0 < id e) six.
Proof. unfold six. simpl. repeat constructor. Qed.

End DemoFacts.

(* ================================================================= *)
(** ** The properties of the specification *)

(** C1.  Against a service whose pages hold at most [pageLimit] entries,
    with a non-negative cap and page size, [fetchEntries] returns once
    the fuel exceeds the cap, and returns at most the cap plus one page
    of entries. *)
Theorem fetchEntries_terminates_bounded (P : Platform) (fuel : nat)
    (q : URLSearchParams.t) (fetchNew : bool) (pageLimit : Z) (s : Sys) :
  honours_limit P ->
  0 <= fetchLimit (service s) ->
  0 <= pageLimit ->
  (Z.to_nat (fetchLimit (service s)) < fuel)%nat ->
  exists s' items q',
    fetchEntries fuel q fetchNew pageLimit s = Some (s', (items, q'))
    /\ Z.of_nat (List.length items) <= fetchLimit (service s) + pageLimit.
Proof.
  intros Hlim Hcap Hpage Hfuel. unfold fetchEntries.
  set (s0 := with_service s _).
  set (q0 := URLSearchParams.set q "limit" _).
  assert (Hs0 : fetchLimit (service s0) = fetchLimit (service s))
    by reflexivity.
  destruct (fetchLoop_returns fuel fetchNew pageLimit None q0 [] s0)
    as [[s' [items q']] Hr].
  { rewrite Hs0. simpl. rewrite Z.sub_0_r. exact Hfuel. }
  exists s', items, q'. split; [exact Hr|].
  apply fetchLoop_bound in Hr; trivial.
  - rewrite Hs0 in Hr. lia.
  - unfold numeric_param, q0. rewrite ParamFacts.get_set_same.
    apply number_round_trip.
  - simpl. lia.
Qed.

(** The scenario of the specification: page size 2, cap 5, six remote
    entries, backlog mode. *)
Lemma fetchEntries_terminates_bounded_witness :
  let P := Demo.online Demo.six in
  let s := Demo.sys P tt (Demo.configs 5 None) [] [] in
  exists s' items q',
    fetchEntries 6 [] false 2 s = Some (s', (items, q'))
    /\ Z.of_nat (List.length items) <= fetchLimit (service s) + 2.
Proof.
  intros P s.
  apply (fetchEntries_terminates_bounded P 6 [] false 2 s).
  - apply DemoFacts.online_honours_limit.
  - simpl. lia.
  - lia.
  - simpl. lia.
Defined.

(** The scenario run: two full pages, then a third that takes the
    accumulator past the cap. *)
Example backlog_scenario :
  let P := Demo.online Demo.six in
  let s := Demo.sys P tt (Demo.configs 5 None) [] [] in
  option_map (fun x => map id (fst (snd x))) (fetchEntries 6 [] false 2 s)
  = Some [6; 5; 4; 3; 2; 1].
Proof. reflexivity. Qed.

(** An incremental run from cursor 2 stops at the empty page between the
    cursor and the last id fetched. *)
Example incremental_scenario :
  let P := Demo.online Demo.six in
  let s := Demo.sys P tt (Demo.configs 5 (Some 2)) [] [] in
  option_map (fun x => (map id (fst (snd x)), snd (snd x)))
             (fetchEntries 6 [] true 2 s)
  = Some ([6; 5; 4; 3],
          [("limit", "2"); ("after_entry_id", "2");
           ("before_entry_id", "3")]).
Proof. reflexivity. Qed.

(** C3.  Against a service that honours [after_entry_id], an incremental
    [fetchEntries] returns, and every entry it returns has an id above
    the cursor the configuration held before the call ([0] when it held
    none). *)
Theorem fetchEntries_incremental_above_cursor (P : Platform) (fuel : nat)
    (q : URLSearchParams.t) (pageLimit : Z) (s : Sys) :
  honours_after P ->
  (Z.to_nat (fetchLimit (service s)) < fuel)%nat ->
  exists s' items q',
    fetchEntries fuel q true pageLimit s = Some (s', (items, q'))
    /\ forall x, In x items -> cursor_of (service s) < id x.
Proof.
  intros Hafter Hfuel. unfold fetchEntries.
  set (s0 := with_service s _).
  set (q0 := URLSearchParams.set q "limit" _).
  destruct (fetchLoop_returns fuel true pageLimit None q0 [] s0)
    as [[s' [items q']] Hr].
  { simpl. rewrite Z.sub_0_r. exact Hfuel. }
  exists s', items, q'. split; [exact Hr|].
  intros x Hx.
  assert (Hcur : lastId (service s0) = Some (cursor_of (service s)))
    by reflexivity.
  assert (Hc : forall n : Z, @None Z = Some n -> Js.truthy_number n = true ->
               numeric_param q0 "after_entry_id"
               = Some (cursor_of (service s)))
    by discriminate.
  destruct (fetchLoop_after fuel _ _ _ _ _ _ _ _ _ Hafter Hcur Hc Hr x Hx)
    as [[]|Hlt].
  exact Hlt.
Qed.

Lemma fetchEntries_incremental_above_cursor_witness :
  let P := Demo.online Demo.six in
  let s := Demo.sys P tt (Demo.configs 5 (Some 2)) [] [] in
  exists s' items q',
    fetchEntries 6 [] true 2 s = Some (s', (items, q'))
    /\ forall x, In x items -> 2 < id x.
Proof.
  intros P s.
  apply (fetchEntries_incremental_above_cursor P 6 [] 2 s).
  - apply DemoFacts.online_honours_after.
  - simpl. lia.
Defined.

(** C2, as the code has it.  Against a service that lists newest first,
    honours [before_entry_id] and numbers its entries from 1, an
    incremental cycle returns and leaves the cursor at the greatest id
    among the entries it fetched; when it fetched none, the cursor holds
    its previous value, or [0] if it held none. *)
Theorem fetchItems_cursor (P : Platform) (fuel : nat) (s : Sys) :
  honours_order P -> honours_before P -> positive_ids P ->
  (Z.to_nat (fetchLimit (service s)) < fuel)%nat ->
  exists s1 items q1 s' r,
    fetchEntries fuel fetchItems_query true default_page_limit s
    = Some (s1, (items, q1))
    /\ fetchItems fuel s = Some (s', r)
    /\ (items = [] -> lastId (service s') = Some (cursor_of (service s)))
    /\ (items <> [] -> lastId (service s') = Some (max_id items)).
Proof.
  intros Horder Hbefore Hpos Hfuel.
  unfold fetchItems, fetchEntries.
  set (s0 := with_service s _).
  set (q0 := URLSearchParams.set fetchItems_query "limit" _).
  destruct (fetchLoop_returns fuel true default_page_limit None q0 [] s0)
    as [[s1 [items q1]] Hr].
  { simpl. rewrite Z.sub_0_r. exact Hfuel. }
  rewrite Hr.
  pose proof (fetchLoop_service _ _ _ _ _ _ _ _ _ Hr) as Hs1.
  assert (Hnf : newest_first items).
  { apply (fetchLoop_newest_first fuel _ _ _ _ _ _ _ _ _
             Hbefore Horder Hpos) in Hr; trivial.
    left. now split. }
  destruct items as [|h t].
  - exists s1, [], q1, s1, (Ok (mkFetched [] (service s1) [])).
    repeat split; trivial.
    + intros _. now rewrite Hs1.
    + intros H. now contradiction H.
  - destruct (parse_items _ _ _) as [[parsed ts]|e];
      eexists s1, (h :: t), q1, _, _;
      (split; [reflexivity|]); (split; [reflexivity|]);
      (split; [discriminate|]); intros _; simpl lastId;
      now rewrite (max_id_newest_first h t Hnf).
Qed.

Lemma fetchItems_cursor_witness :
  let P := Demo.online Demo.six in
  let s := Demo.sys P tt (Demo.configs 5 (Some 2)) [Demo.a_source None] [] in
  exists s1 items q1 s' r,
    fetchEntries 6 fetchItems_query true default_page_limit s
    = Some (s1, (items, q1))
    /\ fetchItems 6 s = Some (s', r)
    /\ (items = [] -> lastId (service s') = Some 2)
    /\ (items <> [] -> lastId (service s') = Some (max_id items)).
Proof.
  intros P s.
  apply (fetchItems_cursor P 6 s).
  - apply DemoFacts.online_honours_order, DemoFacts.six_sorted.
  - apply DemoFacts.online_honours_before.
  - apply DemoFacts.online_positive_ids, DemoFacts.six_positive.
  - simpl. lia.
Defined.

(** C2 fails as stated: with no cursor persisted yet and nothing new on
    the service, the cycle fetches zero entries and still leaves the
    cursor changed, from absent to [0]. *)
Lemma fetchItems_sets_absent_cursor :
  let P := Demo.online [] in
  let s := Demo.sys P tt (Demo.configs 5 None) [] [] in
  exists s' q',
    fetchEntries 6 fetchItems_query true default_page_limit s
    = Some (s', ([], q'))
    /\ fetchItems 6 s = Some (s', Ok (mkFetched [] (service s') []))
    /\ lastId (service s) = None
    /\ lastId (service s') = Some 0
    /\ lastId (service s') <> lastId (service s).
Proof.
  intros P s.
  assert (H : option_map
                (fun x => (lastId (service (fst x)), fst (snd x)))
                (fetchEntries 6 fetchItems_query true default_page_limit s)
              = Some (Some 0, [])) by reflexivity.
  unfold fetchItems.
  destruct (fetchEntries 6 _ _ _ s) as [[s' [items q']]|]; [|discriminate].
  simpl in H. injection H as Hid ->.
  exists s', q'. repeat split; trivial.
  rewrite Hid. discriminate.
Qed.

(** C4 fails on the code.  An unstarred remote entry whose source rule
    stars it: the callback builds a mark-unread thunk for the item, no
    star thunk, and nothing but the page request reaches the service. *)
Theorem fetchItems_rule_star_builds_markUnread :
  let P := Demo.online [Demo.entry 7] in
  let s := Demo.sys P tt (Demo.configs 5 None)
             [Demo.a_source (Some [Demo.star_it])] [] in
  exists s' r,
    fetchItems 6 s = Some (s', Ok r)
    /\ starred (Demo.entry 7) = false
    /\ map item_serviceRef (parsedItems r) = [Some "7"]
    /\ map item_starred (parsedItems r) = [true]
    /\ map thunk_hook (built_thunks r) = [HookMarkUnread]
    /\ map thunk_item (built_thunks r) = parsedItems r
    /\ map req_method (wire s') = ["GET"].
Proof.
  intros P s.
  assert (H : option_map
                (fun x =>
                   (map req_method (wire (fst x)),
                    match snd x with
                    | Ok r =>
                        Some (map item_serviceRef (parsedItems r),
                              map item_starred (parsedItems r),
                              map thunk_hook (built_thunks r),
                              map thunk_item (built_thunks r), parsedItems r)
                    | Throw _ => None
                    end))
                (fetchItems 6 s)
              = Some (["GET"],
                      Some ([Some "7"], [true], [HookMarkUnread],
                            [Demo.star_it (Demo.mapped 7)],
                            [Demo.star_it (Demo.mapped 7)])))
    by reflexivity.
  destruct (fetchItems 6 s) as [[s' [r|e]]|]; try discriminate.
  simpl in H. injection H as Hw Href Hstar Hhook Hitem Hparsed.
  exists s', r. repeat split; trivial. congruence.
Qed.



(** C6, as the code has it.  Every hook but [fetchItems] returns and
    leaves the cursor [configs.lastId ?? 0] as it was; the hooks other
    than [syncItems] do not touch the field, and [syncItems], through
    [fetchEntries], stores [0] in it when it was absent. *)
Theorem cursor_framed (P : Platform) (fuel : nat) (op : Operation) (s : Sys) :
  op <> OpFetchItems ->
  (Z.to_nat (fetchLimit (service s)) < fuel)%nat ->
  exists s' r,
    perform fuel op s = Some (s', r)
    /\ cursor_of (service s') = cursor_of (service s)
    /\ (op <> OpSyncItems -> lastId (service s') = lastId (service s))
    /\ (op = OpSyncItems ->
        lastId (service s') = Some (cursor_of (service s))).
Proof.
  intros Hop Hfuel.
  assert (Hsame : forall (r : Sys * Res unit),
             service (fst r) = service s ->
             op <> OpSyncItems ->
             exists s' r',
               Some r = Some (s', r')
               /\ cursor_of (service s') = cursor_of (service s)
               /\ (op <> OpSyncItems -> lastId (service s') = lastId (service s))
               /\ (op = OpSyncItems ->
                   lastId (service s') = Some (cursor_of (service s)))).
  { intros [s' r'] Hs Hne. simpl in Hs. exists s', r'.
    rewrite Hs. repeat split; trivial. intros E. contradiction. }
  destruct op; simpl; try (apply Hsame; [|discriminate]).
  - rewrite forget_service. apply authenticate_service.
  - rewrite forget_service. apply updateSources_service.
  - contradiction.
  - unfold syncItems.
    destruct (fetchEntries_returns fuel syncItems_query false
                default_page_limit s Hfuel) as [[s1 [unread q1]] H1].
    rewrite H1.
    pose proof (fetchEntries_service _ _ _ _ _ _ _ H1) as Hs1.
    assert (Hfuel1 : (Z.to_nat (fetchLimit (service s1)) < fuel)%nat)
      by (rewrite Hs1; exact Hfuel).
    destruct (fetchEntries_returns fuel
                (URLSearchParams.append
                   (URLSearchParams.delete
                      (URLSearchParams.delete q1 "status")
                      "before_entry_id") "starred" "true")
                false default_page_limit s1 Hfuel1) as [[s2 [fav q2]] H2].
    rewrite H2.
    pose proof (fetchEntries_service _ _ _ _ _ _ _ H2) as Hs2.
    eexists _, _. split; [reflexivity|].
    rewrite Hs2, Hs1. repeat split. intros H. now contradiction H.
  - apply markRead_service.
  - apply markUnread_service.
  - apply markAllRead_service.
  - apply star_service.
  - apply unstar_service.
Qed.

Lemma cursor_framed_witness :
  let P := Demo.online Demo.six in
  let s := Demo.sys P tt (Demo.configs 5 (Some 4)) [] [] in
  OpSyncItems <> OpFetchItems
  /\ (Z.to_nat (fetchLimit (service s)) < 6)%nat
  /\ exists s' r,
       perform 6 OpSyncItems s = Some (s', r)
       /\ lastId (service s') = Some 4.
Proof.
  intros P s.
  split; [discriminate|]. split; [simpl; lia|].
  destruct (cursor_framed P 6 OpSyncItems s) as (s' & r & H & _ & _ & Hs).
  - discriminate.
  - simpl. lia.
  - exists s', r. split; [exact H|]. now apply Hs.
Defined.

(** C6 fails as stated: reconciliation runs [fetchEntries], which reads
    the cursor and, finding none, writes [0]. *)
Lemma syncItems_writes_absent_cursor :
  let P := Demo.online Demo.six in
  let s := Demo.sys P tt (Demo.configs 5 None) [] [] in
  exists s' r,
    syncItems 6 s = Some (s', r)
    /\ lastId (service s) = None
    /\ lastId (service s') = Some 0
    /\ lastId (service s') <> lastId (service s).
Proof.
  intros P s.
  assert (H : option_map (fun x => lastId (service (fst x))) (syncItems 6 s)
              = Some (Some 0)) by reflexivity.
  destruct (syncItems 6 s) as [[s' r]|]; [|discriminate].
  simpl in H. injection H as Hid.
  exists s', r. repeat split; trivial.
  rewrite Hid. discriminate.
Qed.

(** C7.  For an item with a reference, [markRead] ends in the service
    failure exactly when the call is rejected or answered with a status
    other than 204, and returns normally exactly on a 204. *)
Theorem markRead_strict (P : Platform) (item : RSSItem) (s : Sys) :
  Js.truthy (item_serviceRef item) = true ->
  let o := snd (fetch (remote s) (status_request (service s) item "read")) in
  (snd (markRead item s) = Throw APIError
   <-> o = Rejected \/ exists r, o = Resolved r /\ resp_status r <> 204)
  /\ (snd (markRead item s) = Ok tt
      <-> exists r, o = Resolved r /\ resp_status r = 204).
Proof.
  intros Href o. subst o.
  unfold markRead, status_request, bind, getState, ret, throw, fetchAPI.
  rewrite Href. simpl.
  destruct (fetch _ _) as [w [r|]]; simpl.
  - destruct (Z.eqb_spec (resp_status r) 204) as [E|E]; simpl; split; split.
    + discriminate.
    + intros [H|(r' & [= <-] & H)]; [discriminate|contradiction].
    + intros _. now exists r.
    + reflexivity.
    + intros _. right. now exists r.
    + reflexivity.
    + discriminate.
    + intros (r' & [= <-] & H). contradiction.
  - split; split.
    + intros _. now left.
    + reflexivity.
    + discriminate.
    + intros (r & H & _). discriminate.
Qed.

Lemma markRead_strict_witness :
  let P := Demo.answering 500 in
  let s := Demo.sys P tt (Demo.configs 5 None) [] [] in
  let item := Demo.an_item (Some "7") 0 false in
  let o := snd (fetch (remote s) (status_request (service s) item "read")) in
  (snd (markRead item s) = Throw APIError
   <-> o = Rejected \/ exists r, o = Resolved r /\ resp_status r <> 204)
  /\ (snd (markRead item s) = Ok tt
      <-> exists r, o = Resolved r /\ resp_status r = 204).
Proof.
  intros P s item.
  apply (markRead_strict P item s).
  reflexivity.
Defined.

(** C8.  For an item without a reference (absent, or empty), the four
    item hooks return normally and leave the whole state, the list of
    requests sent included, as it was. *)
Theorem hooks_noop_without_serviceRef (P : Platform) (item : RSSItem)
    (s : Sys) :
  Js.truthy (item_serviceRef item) = false ->
  markRead item s = (s, Ok tt)
  /\ markUnread item s = (s, Ok tt)
  /\ star item s = (s, Ok tt)
  /\ unstar item s = (s, Ok tt).
Proof.
  intros Href. unfold markRead, markUnread, star, unstar.
  rewrite Href. simpl. repeat split.
Qed.

Lemma hooks_noop_without_serviceRef_witness :
  let P := Demo.offline in
  let s := Demo.sys P tt (Demo.configs 5 None) [] [] in
  let item := Demo.an_item None 0 false in
  markRead item s = (s, Ok tt)
  /\ markUnread item s = (s, Ok tt)
  /\ star item s = (s, Ok tt)
  /\ unstar item s = (s, Ok tt).
Proof.
  intros P s item.
  apply (hooks_noop_without_serviceRef P item s).
  reflexivity.
Defined.

(** *** The request of the dated branch of [markAllRead], spelled out *)

Lemma selected_iff (sids : list Z) (d : Z) (before : bool) (row : RSSItem) :
  selected sids d before row = true
  <-> In (item_source row) sids
      /\ item_hasRead row = false
      /\ item_serviceRef row <> None
      /\ (if before then item_date row <= d else d <= item_date row).
Proof.
  unfold selected.
  rewrite !andb_true_iff, existsb_exists, negb_true_iff.
  split.
  - intros ((([x [Hx Hex]] & Hread) & Href) & Hdate).
    apply Z.eqb_eq in Hex. subst x. repeat split; trivial.
    + destruct (item_serviceRef row); discriminate.
    + destruct before; now apply Z.leb_le.
  - intros (Hsid & Hread & Href & Hdate). repeat split; trivial.
    + exists (item_source row). split; [exact Hsid|apply Z.eqb_refl].
    + destruct (item_serviceRef row); [reflexivity|contradiction].
    + destruct before; now apply Z.leb_le.
Qed.

Lemma filter_partition {A : Type} (f : A -> bool) (l : list A) :
  Permutation l (filter f l ++ filter (fun x => negb (f x)) l).
Proof.
  induction l as [|x l IH]; simpl; [constructor|].
  destruct (f x); simpl.
  - now constructor.
  - now apply Permutation_cons_app.
Qed.

Lemma partition_In {A : Type} (C : A -> Prop) (l rows rest : list A) :
  Permutation l (rows ++ rest) ->
  Forall C rows -> Forall (fun x => ~ C x) rest ->
  forall x, In x rows <-> In x l /\ C x.
Proof.
  intros Hp Hrows Hrest x. rewrite Forall_forall in Hrows, Hrest. split.
  - intros Hx. split; [|now apply Hrows].
    apply (Permutation_in x (Permutation_sym Hp)).
    apply in_or_app. now left.
  - intros [Hx Hc]. apply (Permutation_in x Hp) in Hx.
    apply in_app_or in Hx. destruct Hx as [Hx|Hx]; [exact Hx|].
    now destruct (Hrest x Hx).
Qed.

Lemma selected_refs (f : RSSItem -> bool) (l : list RSSItem) :
  (forall row, f row = true -> item_serviceRef row <> None) ->
  Forall2 (fun row r => item_serviceRef row = Some r)
          (filter f l) (map row_ref (filter f l)).
Proof.
  intros Hf. induction l as [|row l IH]; simpl; [constructor|].
  destruct (f row) eqn:E; [|exact IH].
  simpl. constructor; [|exact IH].
  unfold row_ref. specialize (Hf row E).
  destruct (item_serviceRef row); [reflexivity|contradiction].
Qed.

(** The one request of the dated branch: the table splits into the rows
    that meet the four conditions and the rest, and the body is the
    literal text of the source with the references of the former. *)
Lemma markAllRead_dated_request (P : Platform) (sids : list Z) (d : Z)
    (before : bool) (s : Sys) :
  let q := String "034"%char EmptyString in
  let nl := String "010"%char EmptyString in
  exists rows rest refs rq,
    Permutation (itemsDB s) (rows ++ rest)
    /\ Forall (fun row =>
                 In (item_source row) sids
                 /\ item_hasRead row = false
                 /\ item_serviceRef row <> None
                 /\ (if before then item_date row <= d
                     else d <= item_date row)) rows
    /\ Forall (fun row =>
                 ~ (In (item_source row) sids
                 /\ item_hasRead row = false
                 /\ item_serviceRef row <> None
                 /\ (if before then item_date row <= d
                     else d <= item_date row))) rest
    /\ Forall2 (fun row r => item_serviceRef row = Some r) rows refs
    /\ wire (fst (markAllRead sids (Some d) before s)) = wire s ++ [rq]
    /\ req_method rq = "PUT"
    /\ req_url rq = String.append (baseUrl (service s)) "entries"
    /\ req_query rq = None
    /\ req_body rq
       = Some (String.concat EmptyString
                  ["{"; nl;
                   "                "; q; "entry_ids"; q; ": [";
                   String.concat "," refs; "],"; nl;
                   "                "; q; "status"; q; ": "; q; "read"; q; nl;
                   "            "; "}"]).
Proof.
  intros q nl.
  exists (filter (selected sids d before) (itemsDB s)),
         (filter (fun row => negb (selected sids d before row)) (itemsDB s)),
         (map row_ref (filter (selected sids d before) (itemsDB s))),
         (build_request (service s) "entries" None "PUT"
            (Some (status_body
                     (Js.join
                        (map row_ref
                           (filter (selected sids d before) (itemsDB s))))
                     12 "read"))).
  split; [apply filter_partition|].
  split.
  { apply Forall_forall. intros row Hrow. apply filter_In in Hrow.
    now apply selected_iff. }
  split.
  { apply Forall_forall. intros row Hrow. apply filter_In in Hrow.
    destruct Hrow as [_ Hrow]. apply negb_true_iff in Hrow.
    intros Hc. apply selected_iff in Hc. congruence. }
  split.
  { apply selected_refs. intros row Hrow.
    now apply selected_iff in Hrow. }
  split.
  { unfold markAllRead, bind, getState, ret.
    pose proof (fetchAPI_wire (service s) "entries" None "PUT"
                  (Some (status_body
                           (Js.join
                              (map row_ref
                                 (filter (selected sids d before)
                                    (itemsDB s))))
                           12 "read")) s) as Hw.
    simpl. destruct (fetchAPI _ _ _ _ _ s) as [s1 [r|e]]; exact Hw. }
  repeat split.
Qed.

(** C9.  With a boundary date and [before] set, [markAllRead] sends one
    request, a [PUT] of [entries] whose body is the text of the source
    with, between the brackets of [entry_ids] and separated by commas,
    the references of exactly those rows of the local table, each as
    often as it is stored and in some order, that belong to the given
    sources, are unread, carry a reference, and are dated at or before
    the boundary. *)
Theorem markAllRead_before_selects (P : Platform) (sids : list Z) (d : Z)
    (s : Sys) :
  let q := String "034"%char EmptyString in
  let nl := String "010"%char EmptyString in
  exists rows rest refs rq,
    Permutation (itemsDB s) (rows ++ rest)
    /\ Forall (fun row =>
                 In (item_source row) sids
                 /\ item_hasRead row = false
                 /\ item_serviceRef row <> None
                 /\ item_date row <= d) rows
    /\ Forall (fun row =>
                 ~ (In (item_source row) sids
                 /\ item_hasRead row = false
                 /\ item_serviceRef row <> None
                 /\ item_date row <= d)) rest
    /\ (forall row,
           In row rows
           <-> In row (itemsDB s)
               /\ In (item_source row) sids
               /\ item_hasRead row = false
               /\ item_serviceRef row <> None
               /\ item_date row <= d)
    /\ Forall2 (fun row r => item_serviceRef row = Some r) rows refs
    /\ wire (fst (markAllRead sids (Some d) true s)) = wire s ++ [rq]
    /\ req_method rq = "PUT"
    /\ req_url rq = String.append (baseUrl (service s)) "entries"
    /\ req_query rq = None
    /\ req_body rq
       = Some (String.concat EmptyString
                  ["{"; nl;
                   "                "; q; "entry_ids"; q; ": [";
                   String.concat "," refs; "],"; nl;
                   "                "; q; "status"; q; ": "; q; "read"; q; nl;
                   "            "; "}"]).
Proof.
  intros q nl.
  destruct (markAllRead_dated_request P sids d true s)
    as (rows & rest & refs & rq & Hp & Hrows & Hrest & Hrefs & Hrq).
  exists rows, rest, refs, rq.
  split; [exact Hp|]. split; [exact Hrows|]. split; [exact Hrest|].
  split; [|split; [exact Hrefs|exact Hrq]].
  exact (partition_In _ _ _ _ Hp Hrows Hrest).
Qed.

(** C10.  For an item with a reference, [star] and [unstar] are the same
    computation: each sends the one request [PUT entries/<ref>/bookmark]
    with no body, and they end in the same state and result. *)
Theorem star_unstar_same_request (P : Platform) (item : RSSItem) (s : Sys) :
  Js.truthy (item_serviceRef item) = true ->
  star item s = unstar item s
  /\ wire (fst (star item s)) = wire s ++ [bookmark_request (service s) item]
  /\ wire (fst (unstar item s))
     = wire s ++ [bookmark_request (service s) item]
  /\ req_method (bookmark_request (service s) item) = "PUT"
  /\ req_body (bookmark_request (service s) item) = None
  /\ req_url (bookmark_request (service s) item)
     = String.append (baseUrl (service s))
         (Js.cat ["entries/"; Js.template (item_serviceRef item);
                  "/bookmark"]).
Proof.
  intros Href.
  assert (Hw : wire (fst (star item s))
               = wire s ++ [bookmark_request (service s) item]).
  { unfold star, bind, getState, ret, bookmark_request. rewrite Href. simpl.
    pose proof (fetchAPI_wire (service s) (bookmark_path item) None "PUT"
                  None s) as Hw.
    destruct (fetchAPI _ _ _ _ _ s) as [s1 [r|e]]; exact Hw. }
  repeat split; trivial.
Qed.

Lemma star_unstar_same_request_witness :
  let P := Demo.answering 204 in
  let s := Demo.sys P tt (Demo.configs 5 None) [] [] in
  let item := Demo.an_item (Some "7") 0 false in
  star item s = unstar item s
  /\ wire (fst (star item s)) = wire s ++ [bookmark_request (service s) item]
  /\ wire (fst (unstar item s))
     = wire s ++ [bookmark_request (service s) item]
  /\ req_method (bookmark_request (service s) item) = "PUT"
  /\ req_body (bookmark_request (service s) item) = None
  /\ req_url (bookmark_request (service s) item)
     = "https://rss.example/v1/entries/7/bookmark".
Proof.
  intros P s item.
  apply (star_unstar_same_request P item s).
  reflexivity.
Defined.

(* ================================================================= *)
(** ** Further properties of the transport *)

Module StringFacts.

Lemma append_assoc (a b c : string) :
  String.append (String.append a b) c = String.append a (String.append b c).
Proof. induction a as [|x a IH]; simpl; [reflexivity|now rewrite IH]. Qed.

Lemma length_append (a b : string) :
  String.length (String.append a b)
  = (String.length a + String.length b)%nat.
Proof. induction a as [|x a IH]; simpl; [reflexivity|now rewrite IH]. Qed.

Lemma substring_all (s : string) :
  String.substring 0 (String.length s) s = s.
Proof. induction s as [|x s IH]; simpl; [reflexivity|now rewrite IH]. Qed.

Lemma substring_skip (p t : string) (m : nat) :
  String.substring (String.length p) m (String.append p t)
  = String.substring 0 m t.
Proof.
  induction p as [|x p IH]; simpl; [reflexivity|].
  destruct m; exact IH.
Qed.

(** Cutting a string at [k] and gluing the halves gives it back. *)
Lemma substring_split (s : string) :
  forall k, (k <= String.length s)%nat ->
    s = String.append (String.substring 0 k s)
          (String.substring k (String.length s - k) s).
Proof.
  induction s as [|x s IH]; intros k Hk; simpl in *.
  - destruct k; [reflexivity|lia].
  - destruct k as [|k]; simpl.
    + now rewrite substring_all.
    + rewrite <- IH by lia. reflexivity.
Qed.

Lemma endsWith_append (p t : string) :
  Js.endsWith (String.append p t) t = true.
Proof.
  unfold Js.endsWith. rewrite length_append.
  destruct (Nat.leb_spec (String.length t)
              (String.length p + String.length t)); [|lia].
  replace (String.length p + String.length t - String.length t)%nat
    with (String.length p) by lia.
  rewrite substring_skip, substring_all. apply String.eqb_refl.
Qed.

Lemma endsWith_inv (s t : string) :
  Js.endsWith s t = true -> exists p, s = String.append p t.
Proof.
  unfold Js.endsWith.
  destruct (Nat.leb_spec (String.length t) (String.length s)) as [Hle|];
    [|discriminate].
  intros H. apply String.eqb_eq in H.
  exists (String.substring 0 (String.length s - String.length t) s).
  rewrite (substring_split s (String.length s - String.length t)) at 1
    by lia.
  f_equal. rewrite <- H at 3. f_equal. lia.
Qed.

Lemma endsWith_iff (s t : string) :
  Js.endsWith s t = true <-> exists p, s = String.append p t.
Proof.
  split; [apply endsWith_inv|].
  intros [p ->]. apply endsWith_append.
Qed.

End StringFacts.

Lemma baseUrl_slash (c : MinifluxConfigs) :
  exists p, baseUrl c = String.append p "/v1/".
Proof.
  unfold baseUrl.
  set (b := if Js.endsWith (endpoint c) "/" then endpoint c
            else String.append (endpoint c) "/").
  assert (Hb : exists p, b = String.append p "/").
  { unfold b. destruct (Js.endsWith (endpoint c) "/") eqn:E.
    - now apply StringFacts.endsWith_inv.
    - now exists (endpoint c). }
  destruct (Js.endsWith b "/v1/") eqn:E.
  - now apply StringFacts.endsWith_inv.
  - destruct Hb as [p ->]. exists p.
    now rewrite StringFacts.append_assoc.
Qed.

(** X1.  Whatever the configured endpoint, the base address requests are
    built on ends in [/v1/]. *)
Theorem baseUrl_ends_with_v1 (c : MinifluxConfigs) :
  Js.endsWith (baseUrl c) "/v1/" = true.
Proof.
  destruct (baseUrl_slash c) as [p ->]. apply StringFacts.endsWith_append.
Qed.

(** X2.  An endpoint that is already a normalised base address is used
    as it is: normalising twice is normalising once. *)
Theorem baseUrl_idempotent (c c' : MinifluxConfigs) :
  endpoint c' = baseUrl c -> baseUrl c' = baseUrl c.
Proof.
  intros He. destruct (baseUrl_slash c) as [p Hp].
  unfold baseUrl at 1. rewrite He, Hp.
  replace (String.append p "/v1/") with (String.append (String.append p "/v1") "/")
    by (now rewrite StringFacts.append_assoc).
  rewrite StringFacts.endsWith_append.
  replace (String.append (String.append p "/v1") "/") with (String.append p "/v1/")
    by (now rewrite StringFacts.append_assoc).
  now rewrite StringFacts.endsWith_append.
Qed.

Lemma baseUrl_idempotent_witness :
  let c := mkConfigs "https://rss.example" true "k" 5 None false in
  let c' := mkConfigs "https://rss.example/v1/" true "k" 5 None false in
  endpoint c' = baseUrl c /\ baseUrl c' = baseUrl c.
Proof.
  intros c c'. split; [reflexivity|].
  apply (baseUrl_idempotent c c'). reflexivity.
Defined.

(* ================================================================= *)
(** ** What the hooks send and what they leave alone *)

Lemma same_account_refl (c : MinifluxConfigs) : same_account c c.
Proof. now repeat split. Qed.

Lemma same_account_sym (c c' : MinifluxConfigs) :
  same_account c c' -> same_account c' c.
Proof. intros (?&?&?&?&?). now repeat split. Qed.

Lemma same_account_trans (a b c : MinifluxConfigs) :
  same_account a b -> same_account b c -> same_account a c.
Proof.
  intros (?&?&?&?&?) (?&?&?&?&?). repeat split; congruence.
Qed.

Lemma same_account_set_lastId (c : MinifluxConfigs) (v : option Z) :
  same_account (set_lastId c v) c.
Proof. now repeat split. Qed.


Section Sends.

Context {P : Platform}.
Variable Q : Request -> Prop.

Lemma sends_refl (s : Sys) : sends Q s s.
Proof.
  split; [apply same_account_refl|]. repeat split.
  exists []. split; [now rewrite app_nil_r|constructor].
Qed.

Lemma sends_trans (s s1 s2 : Sys) :
  sends Q s s1 -> sends Q s1 s2 -> sends Q s s2.
Proof.
  intros (Ha & Hs & Hi & Hc & l1 & Hw1 & Hq1)
         (Ha' & Hs' & Hi' & Hc' & l2 & Hw2 & Hq2).
  split; [exact (same_account_trans _ _ _ Ha' Ha)|].
  repeat split; try congruence.
  exists (l1 ++ l2). split.
  - now rewrite Hw2, Hw1, app_assoc.
  - now apply Forall_app.
Qed.

Lemma fetchAPI_sends configs path query method body (s : Sys) :
  Q (build_request configs path query method body) ->
  sends Q s (fst (fetchAPI configs path query method body s)).
Proof.
  intros Hq. unfold fetchAPI.
  destruct (fetch _ _) as [w [r|]]; simpl;
    (split; [apply same_account_refl|]; repeat split;
     eexists; split; [reflexivity|]; now repeat constructor).
Qed.

Lemma with_service_sends (s : Sys) (v : option Z) :
  sends Q s (with_service s (set_lastId (service s) v)).
Proof.
  split; [apply same_account_set_lastId|]. repeat split.
  exists []. split; [simpl; now rewrite app_nil_r|constructor].
Qed.

Lemma dispatch_groups_sends (s : Sys) names :
  sends Q s (dispatch_groups s names).
Proof.
  split; [apply same_account_refl|]. repeat split.
  exists []. split; [simpl; now rewrite app_nil_r|constructor].
Qed.

(** From here on [Q] holds of every request built for the account
    [c0]. *)
Variable c0 : MinifluxConfigs.
Hypothesis HQ :
  forall c path query method body,
    same_account c c0 -> Q (build_request c path query method body).

Lemma sends_account (s s' : Sys) :
  same_account (service s) c0 -> sends Q s s' ->
  same_account (service s') c0.
Proof.
  intros H (Ha & _). exact (same_account_trans _ _ _ Ha H).
Qed.

Ltac call_fetchAPI H :=
  match goal with
  | |- context [fetchAPI ?c ?p ?q ?m ?b ?s] =>
      pose proof (fetchAPI_sends c p q m b s) as H;
      destruct (fetchAPI c p q m b s) as [? [?|?]]; simpl in *
  end.

Lemma markRead_sends item (s : Sys) :
  same_account (service s) c0 -> sends Q s (fst (markRead item s)).
Proof.
  intros Hs. unfold markRead.
  destruct (negb _); [apply sends_refl|].
  unfold bind, getState, ret, throw. simpl.
  call_fetchAPI H; [destruct (negb _)|]; apply H; now apply HQ.
Qed.

Lemma markUnread_sends item (s : Sys) :
  same_account (service s) c0 -> sends Q s (fst (markUnread item s)).
Proof.
  intros Hs. unfold markUnread.
  destruct (negb _); [apply sends_refl|].
  unfold bind, getState, ret. simpl.
  call_fetchAPI H; apply H; now apply HQ.
Qed.

Lemma star_sends item (s : Sys) :
  same_account (service s) c0 -> sends Q s (fst (star item s)).
Proof.
  intros Hs. unfold star.
  destruct (negb _); [apply sends_refl|].
  unfold bind, getState, ret. simpl.
  call_fetchAPI H; apply H; now apply HQ.
Qed.

Lemma unstar_sends item (s : Sys) :
  same_account (service s) c0 -> sends Q s (fst (unstar item s)).
Proof.
  intros Hs. unfold unstar.
  destruct (negb _); [apply sends_refl|].
  unfold bind, getState, ret. simpl.
  call_fetchAPI H; apply H; now apply HQ.
Qed.

Lemma all_feeds_read_sends configs srcs sids :
  same_account configs c0 ->
  forall s : Sys, sends Q s (fst (all_feeds_read configs srcs sids s)).
Proof.
  intros Hc. induction sids as [|n rest IH]; intros s; simpl;
    [apply sends_refl|].
  call_fetchAPI H;
    (eapply sends_trans; [apply H; now apply HQ|apply IH]).
Qed.

Lemma markAllRead_sends sids date before (s : Sys) :
  same_account (service s) c0 ->
  sends Q s (fst (markAllRead sids date before s)).
Proof.
  intros Hs. unfold markAllRead, bind, getState, ret. simpl.
  destruct date as [d|]; [|now apply all_feeds_read_sends].
  call_fetchAPI H; apply H; now apply HQ.
Qed.

Lemma authenticate_sends configs (s : Sys) :
  same_account configs c0 -> sends Q s (fst (authenticate configs s)).
Proof.
  intros Hc. unfold authenticate, bind, ret, throw.
  call_fetchAPI H; [destruct (resp_json _)|]; apply H; now apply HQ.
Qed.

Lemma import_groups_sends configs (s : Sys) :
  same_account configs c0 -> sends Q s (fst (import_groups configs s)).
Proof.
  intros Hc. unfold import_groups.
  destruct (importGroups configs); [|apply sends_refl].
  unfold bind, ret, throw.
  call_fetchAPI H; [|apply H; now apply HQ].
  destruct (resp_json _); simpl;
    try (apply H; now apply HQ);
    (eapply sends_trans; [apply H; now apply HQ|
                          apply dispatch_groups_sends]).
Qed.

Lemma updateSources_sends (s : Sys) :
  same_account (service s) c0 -> sends Q s (fst (updateSources s)).
Proof.
  intros Hs. unfold updateSources, bind at 1, getState. simpl.
  unfold bind at 1.
  pose proof (import_groups_sends (service s) s Hs) as Hg.
  destruct (import_groups (service s) s) as [s1 [[]|e]]; simpl in *;
    [|exact Hg].
  unfold bind, ret, throw.
  call_fetchAPI H.
  - eapply sends_trans; [exact Hg|].
    destruct (resp_json _) as [e|fs|[|c cs]|m| | |]; simpl;
      apply H; now apply HQ.
  - eapply sends_trans; [exact Hg|]. apply H. now apply HQ.
Qed.

Lemma try_page_sends fetchNew items q (s : Sys) :
  same_account (service s) c0 ->
  sends Q s (fst (try_page fetchNew items q s)).
Proof.
  intros Hs. unfold try_page.
  call_fetchAPI H; [|apply H; now apply HQ].
  destruct (resp_json _); simpl; try (apply H; now apply HQ).
  destruct (entries e); simpl; [apply H; now apply HQ|].
  destruct (next_cursor _ _ _); simpl; apply H; now apply HQ.
Qed.

Lemma fetchLoop_sends fuel :
  forall fetchNew pageLimit c q items (s s' : Sys) out,
    same_account (service s) c0 ->
    fetchLoop fuel fetchNew pageLimit c q items s = Some (s', out) ->
    sends Q s s'.
Proof.
  induction fuel as [|fuel IH];
    intros fetchNew pageLimit c q items s s' out Hs; simpl; [discriminate|].
  pose proof (try_page_sends fetchNew items
                (place_cursor fetchNew (service s) c q) s Hs) as Ht.
  destruct (try_page _ _ _ s) as [s1 [|items' c' resp]]; simpl in Ht.
  - intros [= <- _]. exact Ht.
  - destruct (_ && _).
    + intros H. eapply sends_trans; [exact Ht|].
      eapply IH; [|exact H]. exact (sends_account _ _ Hs Ht).
    + intros [= <- _]. exact Ht.
Qed.

Lemma fetchEntries_sends fuel q fetchNew pageLimit (s s' : Sys) out :
  same_account (service s) c0 ->
  fetchEntries fuel q fetchNew pageLimit s = Some (s', out) ->
  sends Q s s'.
Proof.
  intros Hs H. unfold fetchEntries in H.
  eapply sends_trans; [apply with_service_sends|].
  eapply fetchLoop_sends; [|exact H].
  simpl. exact (same_account_trans _ _ _ (same_account_set_lastId _ _) Hs).
Qed.

Lemma fetchItems_sends fuel (s s' : Sys) r :
  same_account (service s) c0 ->
  fetchItems fuel s = Some (s', r) -> sends Q s s'.
Proof.
  intros Hs. unfold fetchItems.
  destruct (fetchEntries fuel _ _ _ s) as [[s1 [items q1]]|] eqn:E;
    [|discriminate].
  apply (fetchEntries_sends _ _ _ _ _ _ _ Hs) in E.
  destruct items as [|first rest].
  - intros [= <- _]. exact E.
  - destruct (parse_items _ _ _) as [[parsed ts]|e]; intros [= <- _];
      (eapply sends_trans; [exact E|apply with_service_sends]).
Qed.

Lemma syncItems_sends fuel (s s' : Sys) r :
  same_account (service s) c0 ->
  syncItems fuel s = Some (s', r) -> sends Q s s'.
Proof.
  intros Hs. unfold syncItems.
  destruct (fetchEntries fuel _ _ _ s) as [[s1 [unread q1]]|] eqn:E1;
    [|discriminate].
  apply (fetchEntries_sends _ _ _ _ _ _ _ Hs) in E1.
  destruct (fetchEntries fuel _ _ _ s1) as [[s2 [fav q2]]|] eqn:E2;
    [|discriminate].
  apply (fetchEntries_sends _ _ _ _ _ _ _ (sends_account _ _ Hs E1)) in E2.
  intros [= <- _]. exact (sends_trans _ _ _ E1 E2).
Qed.

End Sends.

(** Every hook, run from a state, sends only requests built for its
    account and keeps the rest of the state. *)
Lemma perform_sends (P : Platform) (Q : Request -> Prop) (fuel : nat)
    (op : Operation) (s s' : Sys) (r : Res unit) :
  (forall c path query method body,
      same_account c (account_of op s) ->
      Q (build_request c path query method body)) ->
  perform fuel op s = Some (s', r) ->
  sends Q s s'.
Proof.
  intros HQ.
  assert (Hs : same_account (service s) (service s))
    by apply same_account_refl.
  assert (Hf : forall A (x : Sys * Res A), fst (forget x) = fst x)
    by (intros A [x [a|e]]; reflexivity).
  assert (Hsome : forall x : Sys * Res unit,
             Some x = Some (s', r) -> s' = fst x)
    by (intros x [= ->]; reflexivity).
  destruct op; simpl in *.
  - intros E. apply Hsome in E. subst s'. rewrite Hf.
    eapply authenticate_sends; [exact HQ|apply same_account_refl].
  - intros E. apply Hsome in E. subst s'. rewrite Hf.
    eapply updateSources_sends; [exact HQ|exact Hs].
  - destruct (fetchItems fuel s) as [[s1 r1]|] eqn:E; [|discriminate].
    intros E'. apply Hsome in E'. subst s'. rewrite Hf.
    eapply fetchItems_sends; [exact HQ|exact Hs|exact E].
  - destruct (syncItems fuel s) as [[s1 r1]|] eqn:E; [|discriminate].
    intros E'. apply Hsome in E'. subst s'. rewrite Hf.
    eapply syncItems_sends; [exact HQ|exact Hs|exact E].
  - intros E. apply Hsome in E. subst s'.
    eapply markRead_sends; [exact HQ|exact Hs].
  - intros E. apply Hsome in E. subst s'.
    eapply markUnread_sends; [exact HQ|exact Hs].
  - intros E. apply Hsome in E. subst s'.
    eapply markAllRead_sends; [exact HQ|exact Hs].
  - intros E. apply Hsome in E. subst s'.
    eapply star_sends; [exact HQ|exact Hs].
  - intros E. apply Hsome in E. subst s'.
    eapply unstar_sends; [exact HQ|exact Hs].
Qed.

(** X3.  No hook writes the local source list or the local item table,
    and of the service configuration a hook changes the cursor at most. *)
Theorem hooks_keep_local_state (P : Platform) (fuel : nat) (op : Operation)
    (s s' : Sys) (r : Res unit) :
  perform fuel op s = Some (s', r) ->
  sources s' = sources s
  /\ itemsDB s' = itemsDB s
  /\ same_account (service s') (service s).
Proof.
  intros H.
  apply (perform_sends P (fun _ => True)) in H; [|intros; exact I].
  destruct H as (Ha & Hs & Hi & _).
  split; [exact Hs|split; [exact Hi|exact Ha]].
Qed.

Lemma hooks_keep_local_state_witness :
  let P := Demo.answering 204 in
  let s := Demo.sys P tt (Demo.configs 5 (Some 3))
             [Demo.a_source None] [Demo.an_item (Some "7") 0 false] in
  let item := Demo.an_item (Some "7") 0 false in
  let s' := sent s tt (status_request (service s) item "read") in
  perform 0 (OpMarkRead item) s = Some (s', Ok tt)
  /\ sources s' = sources s
  /\ itemsDB s' = itemsDB s
  /\ same_account (service s') (service s).
Proof.
  intros P s item s'. split; [reflexivity|].
  apply (hooks_keep_local_state P 0 (OpMarkRead item) s s' (Ok tt)).
  reflexivity.
Defined.



(* ================================================================= *)
(** ** Further properties of [fetchEntries] *)

Section Pages.

Context {P : Platform}.

Lemma try_page_wire fetchNew items q (s : Sys) :
  wire (fst (try_page fetchNew items q s))
  = wire s ++ [entries_request (service s) q].
Proof.
  unfold try_page, entries_request.
  pose proof (fetchAPI_wire (service s) "entries?" (Some q) "GET" None s)
    as Hw.
  destruct (fetchAPI _ _ _ _ _ s) as [s' [r|e]]; simpl in *; [|exact Hw].
  destruct (resp_json r); try exact Hw.
  destruct (entries e); [exact Hw|].
  destruct (next_cursor _ _ _); exact Hw.
Qed.

Lemma passthrough_refl q : passthrough q q.
Proof. now intros name _ _. Qed.

Lemma passthrough_trans q q1 q2 :
  passthrough q q1 -> passthrough q1 q2 -> passthrough q q2.
Proof.
  intros H1 H2 name Hb Ha. rewrite (H2 name Hb Ha). now apply H1.
Qed.

Lemma place_cursor_passthrough fetchNew configs c q :
  passthrough q (place_cursor fetchNew configs c q).
Proof. intros name Hb Ha. now apply place_cursor_keeps. Qed.

Lemma place_cursor_backlog configs c q :
  URLSearchParams.get (place_cursor false configs c q) "after_entry_id"
  = URLSearchParams.get q "after_entry_id".
Proof.
  unfold place_cursor.
  destruct c as [n|]; [destruct (Js.truthy_number n)|]; try reflexivity.
  apply ParamFacts.get_set_other. discriminate.
Qed.

End Pages.

Module ParamMore.

Import URLSearchParams.

Lemma get_delete_same (q : t) (name : string) :
  get (delete q name) name = None.
Proof.
  unfold get, delete. induction q as [|[k v] q IH]; simpl; [reflexivity|].
  destruct (String.eqb_spec k name) as [->|Hk]; simpl; [exact IH|].
  destruct (String.eqb_spec k name); [contradiction|exact IH].
Qed.

Lemma get_append (q : t) (name value other : string) :
  get (append q name value) other
  = match get q other with
    | Some v => Some v
    | None => if String.eqb name other then Some value else None
    end.
Proof.
  unfold get, append. induction q as [|[k v] q IH]; simpl.
  - now destruct (String.eqb name other).
  - destruct (String.eqb k other); [reflexivity|exact IH].
Qed.

End ParamMore.

Section Requests.

Context {P : Platform}.

(** The requests of the loop: one per pass, the first with the cursor
    placed from the state the loop starts in, each carrying the
    parameters it was started with, at most as many as the cap leaves
    room for. *)
Lemma fetchLoop_requests fuel :
  forall fetchNew pageLimit c q items (s s' : Sys) out q',
    fetchLoop fuel fetchNew pageLimit c q items s = Some (s', (out, q')) ->
    exists rest,
      wire s'
      = wire s
        ++ entries_request (service s) (place_cursor fetchNew (service s) c q)
           :: rest
      /\ Forall (of_run fetchNew (service s) q)
           (entries_request (service s)
              (place_cursor fetchNew (service s) c q) :: rest)
      /\ (List.length rest
          < Z.to_nat (Z.max 1 (fetchLimit (service s)
                                - Z.of_nat (List.length items))))%nat
      /\ passthrough q q'.
Proof.
  induction fuel as [|fuel IH];
    intros fetchNew pageLimit c q items s s' out q'; simpl; [discriminate|].
  set (q1 := place_cursor fetchNew (service s) c q).
  assert (Hq1 : of_run fetchNew (service s) q (entries_request (service s) q1)).
  { exists q1. split; [reflexivity|].
    split; [apply place_cursor_passthrough|].
    intros ->. apply place_cursor_backlog. }
  pose proof (try_page_wire fetchNew items q1 s) as Hw.
  destruct (try_page _ _ _ s) as [s1 [|items' c' resp]] eqn:Et; simpl in Hw.
  - intros [= <- _ <-]. exists []. repeat split; trivial.
    + now constructor.
    + simpl. lia.
    + apply place_cursor_passthrough.
  - apply try_page_reached in Et.
    destruct Et as (_ & Hne & -> & _ & Hs).
    destruct (_ && _) eqn:Ec.
    + intros H. apply IH in H.
      destruct H as (rest & Hw' & Hall & Hlen & Hpass).
      apply andb_true_iff in Ec. destruct Ec as [_ Hlt].
      apply Z.ltb_lt in Hlt. rewrite Hs in *.
      exists (entries_request (service s)
                (place_cursor fetchNew (service s) c' q1) :: rest).
      split; [|split; [|split]].
      * rewrite Hw', Hw, <- app_assoc. reflexivity.
      * constructor; [exact Hq1|].
        eapply Forall_impl; [|exact Hall].
        intros rq (qi & -> & Hp & Hb). exists qi.
        split; [reflexivity|]. split.
        -- eapply passthrough_trans; [|exact Hp].
           apply place_cursor_passthrough.
        -- intros ->. rewrite (Hb eq_refl). apply place_cursor_backlog.
      * rewrite length_app in *. simpl List.length in *.
        destruct (entries resp); [contradiction|]. simpl List.length in *.
        lia.
      * eapply passthrough_trans; [|exact Hpass].
        apply place_cursor_passthrough.
    + intros [= <- _ <-]. exists []. repeat split; trivial.
      * now constructor.
      * simpl. lia.
      * apply place_cursor_passthrough.
Qed.

End Requests.

(** X5.  One run of [fetchEntries] sends at least one request and at most
    as many as the overall cap, or one when the cap is below one. *)
Theorem fetchEntries_request_budget (P : Platform) (fuel : nat)
    (q : URLSearchParams.t) (fetchNew : bool) (pageLimit : Z)
    (s s' : Sys) (out : list Entry * URLSearchParams.t) :
  fetchEntries fuel q fetchNew pageLimit s = Some (s', out) ->
  exists added,
    wire s' = wire s ++ added
    /\ (1 <= List.length added
        <= Z.to_nat (Z.max 1 (fetchLimit (service s))))%nat.
Proof.
  destruct out as [items q']. unfold fetchEntries. intros H.
  apply fetchLoop_requests in H.
  destruct H as (rest & Hw & _ & Hlen & _).
  eexists. split; [exact Hw|].
  simpl in *. rewrite Z.sub_0_r in Hlen. lia.
Qed.

Lemma fetchEntries_request_budget_witness :
  let P := Demo.offline in
  let s := Demo.sys P tt (Demo.configs 5 None) [] [] in
  let q := URLSearchParams.set
             (URLSearchParams.set [] "limit" "2") "after_entry_id" "0" in
  let s' :=
    console_log
      (sent (with_service s (set_lastId (service s) (Some 0))) tt
         (entries_request (Demo.configs 5 (Some 0)) q))
      APIError in
  fetchEntries 6 [] true 2 s = Some (s', ([], q))
  /\ exists added,
       wire s' = wire s ++ added
       /\ (1 <= List.length added <= 5)%nat.
Proof.
  intros P s q s'. split; [reflexivity|].
  apply (fetchEntries_request_budget P 6 [] true 2 s s' ([], q)).
  reflexivity.
Defined.



(* ================================================================= *)
(** ** The order of what [fetchEntries] returns *)

Lemma descending_app (l1 l2 : list Entry) :
  descending l1 -> descending l2 ->
  (forall x y, In x l1 -> In y l2 -> id y < id x) ->
  descending (l1 ++ l2).
Proof.
  unfold descending. intros H1 H2 Hcross.
  induction H1 as [|x l1 Hs IH Hall]; simpl; [exact H2|].
  constructor.
  - apply IH. intros a b Ha Hb. apply Hcross; [now right|exact Hb].
  - apply Forall_app. split; [exact Hall|].
    apply Forall_forall. intros y Hy. apply Hcross; [now left|exact Hy].
Qed.

Lemma descending_last (l : list Entry) (z : Entry) :
  descending l -> Js.lastOf l = Some z ->
  forall x, In x l -> id z <= id x.
Proof.
  unfold descending. induction 1 as [|y l Hs IH Hall]; simpl;
    [discriminate|].
  destruct l as [|y' l'].
  - intros [= <-] x [<-|[]]. lia.
  - intros Hl x [<-|Hx].
    + apply lastOf_In in Hl. rewrite Forall_forall in Hall.
      specialize (Hall z Hl). lia.
    + now apply IH.
Qed.

Lemma descending_NoDup (l : list Entry) :
  descending l -> NoDup (map id l).
Proof.
  unfold descending. induction 1 as [|x l Hs IH Hall]; simpl; constructor;
    [|exact IH].
  intros Hin. apply in_map_iff in Hin. destruct Hin as (y & Hy & Hin).
  rewrite Forall_forall in Hall. specialize (Hall y Hin). lia.
Qed.

Section Order.

Context {P : Platform}.

Lemma fetchLoop_descending fuel :
  forall fetchNew pageLimit c q items (s s' : Sys) out q',
    lists_descending P -> honours_before P -> positive_ids P ->
    URLSearchParams.get q "order" = Some "id" ->
    URLSearchParams.get q "direction" = Some "desc" ->
    descending items ->
    ((items = [] /\ c = None)
     \/ exists z, Js.lastOf items = Some z /\ c = Some (id z) /\ 0 < id z) ->
    fetchLoop fuel fetchNew pageLimit c q items s = Some (s', (out, q')) ->
    descending out.
Proof.
  induction fuel as [|fuel IH];
    intros fetchNew pageLimit c q items s s' out q' Hd Hb Hp Hord Hdir
           Hitems Hc; simpl; [discriminate|].
  destruct (try_page _ _ _ s) as [s1 [|items' c' resp]] eqn:Et.
  - intros [= _ <- _]. exact Hitems.
  - apply try_page_reached in Et.
    destruct Et as (Hpage & Hne & -> & (x & Hlast & ->) & Hs).
    assert (Hpg : descending (entries resp)).
    { apply (Hd _ _ _ _ Hpage);
        rewrite place_cursor_keeps by discriminate; assumption. }
    assert (Hall : descending (items ++ entries resp)).
    { destruct Hc as [[-> ->]|(z & Hz & -> & Hzpos)]; [exact Hpg|].
      apply descending_app; trivial.
      intros a b Ha Hbin.
      pose proof (descending_last _ _ Hitems Hz a Ha) as Hza.
      assert (Hq : numeric_param
                     (place_cursor fetchNew (service s) (Some (id z)) q)
                     "before_entry_id" = Some (id z))
        by (apply place_cursor_before; [reflexivity|exact Hzpos]).
      pose proof (Hb _ _ _ _ _ _ Hpage Hq Hbin). lia. }
    assert (Hc' : (items ++ entries resp = [] /\ Some (id x) = None)
                  \/ exists z, Js.lastOf (items ++ entries resp) = Some z
                               /\ Some (id x) = Some (id z) /\ 0 < id z).
    { right. exists x. rewrite lastOf_app by exact Hne.
      repeat split; trivial.
      exact (Hp _ _ _ _ _ Hpage (lastOf_In _ _ Hlast)). }
    destruct (_ && _).
    + apply IH; trivial;
        rewrite place_cursor_keeps by discriminate; assumption.
    + intros [= _ <- _]. exact Hall.
Qed.

Lemma fetchEntries_above fuel q pageLimit (s s' : Sys) items q' :
  honours_after P ->
  fetchEntries fuel q true pageLimit s = Some (s', (items, q')) ->
  forall x, In x items -> cursor_of (service s) < id x.
Proof.
  intros Hafter H x Hx. unfold fetchEntries in H.
  assert (Hc : forall n : Z, @None Z = Some n -> Js.truthy_number n = true ->
               numeric_param
                 (URLSearchParams.set q "limit"
                    (Js.string_of_number pageLimit)) "after_entry_id"
               = Some (cursor_of (service s)))
    by discriminate.
  assert (Hcur : lastId (service
                           (with_service s
                              (set_lastId (service s)
                                 (Some (cursor_of (service s))))))
                 = Some (cursor_of (service s))) by reflexivity.
  destruct (fetchLoop_after fuel _ _ _ _ _ _ _ _ _ Hafter Hcur Hc H x Hx)
    as [[]|Hlt].
  exact Hlt.
Qed.

End Order.

Module DemoMore.

Import Demo.

Lemma sorted_filter_gen (R : Entry -> Entry -> Prop) f (l : list Entry) :
  StronglySorted R l -> StronglySorted R (filter f l).
Proof.
  induction 1 as [|x l Hs IH Hall]; simpl; [constructor|].
  destruct (f x); [|exact IH].
  constructor; [exact IH|].
  apply Forall_forall. intros y Hy. apply filter_In in Hy.
  rewrite Forall_forall in Hall. now apply Hall.
Qed.

Lemma sorted_firstn_gen (R : Entry -> Entry -> Prop) (l : list Entry) :
  StronglySorted R l -> forall k, StronglySorted R (firstn k l).
Proof.
  induction 1 as [|x l Hs IH Hall]; intros [|k]; simpl; try constructor.
  - apply IH.
  - apply Forall_forall. intros y Hy.
    rewrite Forall_forall in Hall. apply Hall.
    rewrite <- (firstn_skipn k l). apply in_or_app. now left.
Qed.

Lemma online_lists_descending data :
  descending data -> lists_descending (online data).
Proof.
  intros Hs w rq q e Hp _ _.
  apply DemoFacts.page_online in Hp. destruct Hp as [_ ->]. simpl.
  unfold descending, take.
  destruct (numeric_param q "limit");
    [apply sorted_firstn_gen|]; now apply sorted_filter_gen.
Qed.

Lemma six_descending : descending six.
Proof.
  unfold descending, six. simpl.
  repeat (constructor; [|repeat constructor; simpl; lia]).
  constructor.
Qed.

End DemoMore.

(** X7.  Against a service whose pages are strictly descending in id,
    that honours [before_entry_id] and numbers entries from 1, what
    [fetchEntries] returns for a query ordered by descending id is
    strictly descending in id, in both modes; in particular no entry
    comes twice. *)
Theorem fetchEntries_descending (P : Platform) (fuel : nat)
    (q : URLSearchParams.t) (fetchNew : bool) (pageLimit : Z) (s : Sys) :
  lists_descending P -> honours_before P -> positive_ids P ->
  URLSearchParams.get q "order" = Some "id" ->
  URLSearchParams.get q "direction" = Some "desc" ->
  (Z.to_nat (fetchLimit (service s)) < fuel)%nat ->
  exists s' items q',
    fetchEntries fuel q fetchNew pageLimit s = Some (s', (items, q'))
    /\ descending items
    /\ NoDup (map id items).
Proof.
  intros Hd Hb Hp Hord Hdir Hfuel.
  destruct (fetchEntries_returns fuel q fetchNew pageLimit s Hfuel)
    as [[s' [items q']] Hr].
  exists s', items, q'. split; [exact Hr|].
  assert (Hdesc : descending items).
  { unfold fetchEntries in Hr.
    apply (fetchLoop_descending fuel _ _ _ _ _ _ _ _ _ Hd Hb Hp) in Hr;
      trivial.
    - rewrite ParamFacts.get_set_other by discriminate. exact Hord.
    - rewrite ParamFacts.get_set_other by discriminate. exact Hdir.
    - constructor.
    - left. now split. }
  split; [exact Hdesc|now apply descending_NoDup].
Qed.

Lemma fetchEntries_descending_witness :
  let P := Demo.online Demo.six in
  let s := Demo.sys P tt (Demo.configs 5 None) [] [] in
  exists s' items q',
    fetchEntries 6 syncItems_query false 2 s = Some (s', (items, q'))
    /\ descending items
    /\ NoDup (map id items).
Proof.
  intros P s.
  apply (fetchEntries_descending P 6 syncItems_query false 2 s).
  - apply DemoMore.online_lists_descending, DemoMore.six_descending.
  - apply DemoFacts.online_honours_before.
  - apply DemoFacts.online_positive_ids, DemoFacts.six_positive.
  - reflexivity.
  - reflexivity.
  - simpl. lia.
Defined.

(* ================================================================= *)
(** ** Further properties of [fetchItems] *)

Section Mapping.

Context {P : Platform}.

Lemma parse_item_error sourceMap now item e :
  parse_item sourceMap now item = Throw e -> e = RuntimeError.
Proof.
  unfold parse_item.
  destruct (JsMap.get _ _) as [source|]; [|now intros [= <-]].
  destruct (urlOrigin _) as [origin|]; [|now intros [= <-]].
  destruct (rules source); discriminate.
Qed.

Lemma parse_items_error sourceMap now items e :
  parse_items sourceMap now items = Throw e -> e = RuntimeError.
Proof.
  induction items as [|x items IH]; simpl; [discriminate|].
  destruct (parse_item sourceMap now x) as [[parsed ts]|e'] eqn:Ex.
  - destruct (parse_items sourceMap now items) as [[ps tss]|e''];
      [discriminate|].
    intros [= <-]. now apply IH.
  - intros [= <-]. exact (parse_item_error _ _ _ _ Ex).
Qed.

Lemma parse_items_unknown sourceMap now items x :
  In x items ->
  JsMap.get sourceMap (Js.string_of_number (feed_id (feed x))) = None ->
  parse_items sourceMap now items = Throw RuntimeError.
Proof.
  intros Hin Hget.
  assert (H : exists e, parse_items sourceMap now items = Throw e).
  { induction items as [|y items IH]; [contradiction|]. simpl.
    destruct Hin as [->|Hin].
    - unfold parse_item at 1. rewrite Hget. now eexists.
    - destruct (parse_item sourceMap now y) as [[parsed ts]|e];
        [|now eexists].
      destruct (IH Hin) as [e ->]. now eexists. }
  destruct H as [e He]. now rewrite He, (parse_items_error _ _ _ _ He).
Qed.

Lemma with_thumbnail_flags item origin parsed :
  item_hasRead (with_thumbnail item origin parsed) = item_hasRead parsed
  /\ item_starred (with_thumbnail item origin parsed) = item_starred parsed.
Proof.
  unfold with_thumbnail.
  destruct (querySelectorImgSrc _ _) as [src|]; [|now split].
  destruct (Js.truthy_string src); now split.
Qed.

Lemma fetchItems_returns fuel (s : Sys) :
  (Z.to_nat (fetchLimit (service s)) < fuel)%nat ->
  exists r, fetchItems fuel s = Some r.
Proof.
  intros Hfuel. unfold fetchItems.
  destruct (fetchEntries_returns fuel fetchItems_query true
              default_page_limit s Hfuel) as [[s1 [items q1]] ->].
  destruct items as [|first rest]; [now eexists|].
  destruct (parse_items _ _ _) as [[parsed ts]|e]; now eexists.
Qed.

End Mapping.

(** X8.  Against a service that honours [after_entry_id], a cycle of
    [fetchItems] never moves the cursor back, moves it forward whenever
    it returns items, and the configuration it returns is the one left
    in the state. *)
Theorem fetchItems_never_moves_cursor_back (P : Platform) (fuel : nat)
    (s : Sys) :
  honours_after P ->
  (Z.to_nat (fetchLimit (service s)) < fuel)%nat ->
  exists s' r,
    fetchItems fuel s = Some (s', r)
    /\ cursor_of (service s) <= cursor_of (service s')
    /\ forall res,
        r = Ok res ->
        returned_configs res = service s'
        /\ (parsedItems res <> [] ->
            cursor_of (service s) < cursor_of (service s')).
Proof.
  intros Hafter Hfuel. unfold fetchItems.
  destruct (fetchEntries_returns fuel fetchItems_query true
              default_page_limit s Hfuel) as [[s1 [items q1]] Hr].
  rewrite Hr.
  pose proof (fetchEntries_service _ _ _ _ _ _ _ Hr) as Hs1.
  pose proof (fetchEntries_above _ _ _ _ _ _ _ Hafter Hr) as Habove.
  destruct items as [|first rest].
  - eexists _, _. split; [reflexivity|].
    rewrite Hs1. split; [unfold cursor_of; simpl; lia|].
    intros res [= <-]. simpl. split; [reflexivity|].
    intros H. now contradiction H.
  - assert (Hlt : cursor_of (service s) < id first)
      by (apply Habove; now left).
    destruct (parse_items _ _ _) as [[parsed ts]|e];
      eexists _, _; (split; [reflexivity|]);
      (split; [unfold cursor_of at 2; simpl; lia|]);
      intros res [= <-]; simpl.
    split; [reflexivity|]. intros _. unfold cursor_of at 2. simpl. lia.
Qed.

Lemma fetchItems_never_moves_cursor_back_witness :
  let P := Demo.online Demo.six in
  let s := Demo.sys P tt (Demo.configs 5 (Some 2)) [Demo.a_source None] [] in
  exists s' r,
    fetchItems 6 s = Some (s', r)
    /\ 2 <= cursor_of (service s')
    /\ forall res,
        r = Ok res ->
        returned_configs res = service s'
        /\ (parsedItems res <> [] -> 2 < cursor_of (service s')).
Proof.
  intros P s.
  apply (fetchItems_never_moves_cursor_back P 6 s).
  - apply DemoFacts.online_honours_after.
  - simpl. lia.
Defined.

(** X9.  When a fetched entry belongs to a feed no local source is
    linked to, the cycle fails with a runtime error; by then the cursor
    in the configuration has already been moved to the first fetched
    entry. *)
Theorem fetchItems_unknown_feed (P : Platform) (fuel : nat) (s s1 : Sys)
    (items : list Entry) (q1 : URLSearchParams.t) (x : Entry) :
  fetchEntries fuel fetchItems_query true default_page_limit s
  = Some (s1, (items, q1)) ->
  In x items ->
  JsMap.get (build_source_map (sources s))
            (Js.string_of_number (feed_id (feed x))) = None ->
  exists s' first,
    fetchItems fuel s = Some (s', Throw RuntimeError)
    /\ hd_error items = Some first
    /\ lastId (service s') = Some (id first).
Proof.
  intros Hr Hin Hget. unfold fetchItems. rewrite Hr.
  destruct items as [|first rest]; [contradiction|].
  rewrite (parse_items_unknown _ _ _ x Hin Hget).
  eexists _, first. repeat split.
Qed.

Lemma fetchItems_unknown_feed_witness :
  let P := Demo.online [Demo.entry 7] in
  let s := Demo.sys P tt (Demo.configs 5 None) [] [] in
  let q := [("order", "id"); ("direction", "desc"); ("limit", "125");
            ("after_entry_id", "0")] in
  let s1 := sent (with_service s (set_lastId (service s) (Some 0))) tt
              (entries_request (Demo.configs 5 (Some 0)) q) in
  fetchEntries 6 fetchItems_query true default_page_limit s
  = Some (s1, ([Demo.entry 7], q))
  /\ exists s' first,
       fetchItems 6 s = Some (s', Throw RuntimeError)
       /\ hd_error [Demo.entry 7] = Some first
       /\ lastId (service s') = Some (id first).
Proof.
  intros P s q s1. split; [reflexivity|].
  apply (fetchItems_unknown_feed P 6 s s1 [Demo.entry 7] q (Demo.entry 7)).
  - reflexivity.
  - now left.
  - reflexivity.
Defined.

(** X10.  Mapping one entry builds a thunk exactly when the mapped item
    disagrees with the remote entry on the read or the starred flag; it
    builds at most two, each for the mapped item. *)
Theorem parse_item_thunks (P : Platform)
    (sourceMap : JsMap.t (RSSSource Rule)) (now : Z) (item : Entry)
    (parsed : RSSItem) (ts : list Thunk) :
  parse_item sourceMap now item = Ok (parsed, ts) ->
  (ts = [] <-> item_hasRead parsed = is_read (status item)
               /\ item_starred parsed = starred item)
  /\ Forall (fun t => thunk_item t = parsed) ts
  /\ (List.length ts <= 2)%nat.
Proof.
  unfold parse_item.
  destruct (JsMap.get _ _) as [source|]; [|discriminate].
  destruct (urlOrigin _) as [origin|]; [|discriminate].
  destruct (rules source) as [rs|].
  - intros [= <- <-]. unfold rule_thunks.
    destruct (is_read (status item)), (starred item),
      (item_hasRead (applyAll rs _)), (item_starred (applyAll rs _));
      simpl; repeat split; try discriminate; try lia;
      try (intros [? ?]; discriminate); repeat constructor.
  - intros [= <- <-].
    destruct (with_thumbnail_flags item origin
                (mkItem (sid source) (title item) (url item)
                   (parseDate
                      match published_at item with
                      | Some p => p
                      | None => created_at item
                      end) now (content item)
                   (trim (htmlDecode (content item))) (author item)
                   (is_read (status item)) (starred item) false false
                   (Some (Js.string_of_number (id item))) None))
      as [Hr Hs].
    repeat split; trivial. simpl. lia.
Qed.

Lemma parse_item_thunks_witness :
  let P := Demo.online [] in
  let sourceMap := build_source_map [Demo.a_source (Some [Demo.star_it])] in
  let parsed := Demo.star_it (Demo.mapped 7) in
  let ts := [mkThunk HookMarkUnread parsed] in
  parse_item sourceMap 0 (Demo.entry 7) = Ok (parsed, ts)
  /\ (ts = [] <-> item_hasRead parsed = is_read (status (Demo.entry 7))
                  /\ item_starred parsed = starred (Demo.entry 7))
  /\ Forall (fun t => thunk_item t = parsed) ts
  /\ (List.length ts <= 2)%nat.
Proof.
  intros P sourceMap parsed ts. split; [reflexivity|].
  apply (parse_item_thunks P sourceMap 0 (Demo.entry 7) parsed ts).
  reflexivity.
Defined.

(* ================================================================= *)
(** ** Further properties of [syncItems] *)

(** X11.  [syncItems] makes two passes, one after the other: the first
    asks for unread entries only; the second asks for starred entries
    whatever their status, and starts afresh, its first request carrying
    no [before_entry_id] left over from the first pass.  Both ask for
    descending ids. *)
Theorem syncItems_two_passes (P : Platform) (fuel : nat) (s s' : Sys)
    (r : Res (list string * list string)) :
  syncItems fuel s = Some (s', r) ->
  exists unreadPass starredFirst starredRest,
    wire s' = wire s ++ unreadPass ++ starredFirst :: starredRest
    /\ unreadPass <> []
    /\ Forall (fun rq => carries rq "status" (Some "unread")
                         /\ carries rq "starred" None
                         /\ carries rq "order" (Some "id")
                         /\ carries rq "direction" (Some "desc"))
              unreadPass
    /\ Forall (fun rq => carries rq "status" None
                         /\ carries rq "starred" (Some "true")
                         /\ carries rq "order" (Some "id")
                         /\ carries rq "direction" (Some "desc"))
              (starredFirst :: starredRest)
    /\ carries starredFirst "before_entry_id" None.
Proof.
  unfold syncItems.
  destruct (fetchEntries fuel _ _ _ s) as [[s1 [unread q1]]|] eqn:E1;
    [|discriminate].
  destruct (fetchEntries fuel _ _ _ s1) as [[s2 [fav q2]]|] eqn:E2;
    [|discriminate].
  intros [= <- _].
  unfold fetchEntries in E1, E2.
  apply fetchLoop_requests in E1. apply fetchLoop_requests in E2.
  destruct E1 as (rest1 & Hw1 & Hall1 & _ & Hp1).
  destruct E2 as (rest2 & Hw2 & Hall2 & _ & _).
  set (q0 := URLSearchParams.set syncItems_query "limit"
               (Js.string_of_number default_page_limit)) in *.
  set (q4 := URLSearchParams.append
               (URLSearchParams.delete
                  (URLSearchParams.delete q1 "status") "before_entry_id")
               "starred" "true") in *.
  set (q5 := URLSearchParams.set q4 "limit"
               (Js.string_of_number default_page_limit)) in *.
  assert (Hq4 : forall name,
             name <> "status" -> name <> "before_entry_id" ->
             name <> "after_entry_id" -> name <> "starred" ->
             URLSearchParams.get q4 name = URLSearchParams.get q0 name).
  { intros name Hs Hb Ha Hst. unfold q4.
    rewrite ParamMore.get_append.
    rewrite !ParamFacts.get_delete_other by congruence.
    rewrite (Hp1 name Hb Ha).
    destruct (URLSearchParams.get q0 name); [reflexivity|].
    destruct (String.eqb_spec "starred" name); [congruence|reflexivity]. }
  assert (Hstatus : URLSearchParams.get q4 "status" = None).
  { unfold q4. rewrite ParamMore.get_append.
    rewrite ParamFacts.get_delete_other by discriminate.
    now rewrite ParamMore.get_delete_same. }
  assert (Hbefore : URLSearchParams.get q4 "before_entry_id" = None).
  { unfold q4. rewrite ParamMore.get_append.
    now rewrite ParamMore.get_delete_same. }
  assert (Hstarred : URLSearchParams.get q4 "starred" = Some "true").
  { unfold q4. rewrite ParamMore.get_append.
    rewrite !ParamFacts.get_delete_other by discriminate.
    now rewrite (Hp1 "starred") by discriminate. }
  eexists _, _, rest2. split; [|split; [|split; [|split]]].
  - rewrite Hw2. simpl wire. rewrite Hw1. simpl wire.
    rewrite <- app_assoc. reflexivity.
  - discriminate.
  - eapply Forall_impl; [|exact Hall1].
    intros rq (qi & -> & Hp & _).
    repeat split; exists qi; (split; [reflexivity|]);
      now rewrite Hp by discriminate.
  - eapply Forall_impl; [|exact Hall2].
    intros rq (qi & -> & Hp & _).
    repeat split; exists qi; (split; [reflexivity|]);
      rewrite Hp by discriminate; unfold q5;
      rewrite ParamFacts.get_set_other by discriminate;
      trivial; now rewrite Hq4 by discriminate.
  - eexists. split; [reflexivity|]. simpl. unfold q5.
    now rewrite ParamFacts.get_set_other by discriminate.
Qed.

Lemma syncItems_two_passes_witness :
  let P := Demo.offline in
  let s := Demo.sys P tt (Demo.configs 5 None) [] [] in
  let c := Demo.configs 5 (Some 0) in
  let qA := [("status", "unread"); ("order", "id"); ("direction", "desc");
             ("limit", "125")] in
  let qB := [("order", "id"); ("direction", "desc"); ("limit", "125");
             ("starred", "true")] in
  let s1 := console_log (sent (with_service s c) tt (entries_request c qA))
              APIError in
  let s' := console_log (sent s1 tt (entries_request c qB)) APIError in
  syncItems 6 s = Some (s', Ok ([], []))
  /\ exists unreadPass starredFirst starredRest,
       wire s' = wire s ++ unreadPass ++ starredFirst :: starredRest
       /\ unreadPass <> []
       /\ Forall (fun rq => carries rq "status" (Some "unread")
                            /\ carries rq "starred" None
                            /\ carries rq "order" (Some "id")
                            /\ carries rq "direction" (Some "desc"))
                 unreadPass
       /\ Forall (fun rq => carries rq "status" None
                            /\ carries rq "starred" (Some "true")
                            /\ carries rq "order" (Some "id")
                            /\ carries rq "direction" (Some "desc"))
                 (starredFirst :: starredRest)
       /\ carries starredFirst "before_entry_id" None.
Proof.
  intros P s c qA qB s1 s'. split; [reflexivity|].
  apply (syncItems_two_passes P 6 s s' (Ok ([], []))).
  reflexivity.
Defined.

(* ================================================================= *)
(** ** [authenticate] and [updateSources] *)

(** X12.  [authenticate] sends one request, to [me].  It answers [false]
    exactly when the decoded body carries a non-empty [error_message],
    whatever the status, and raises the service failure exactly when the
    call itself is rejected. *)
Theorem authenticate_verdict (P : Platform) (c : MinifluxConfigs) (s : Sys) :
  let rq := build_request c "me" None "GET" None in
  let o := snd (fetch (remote s) rq) in
  wire (fst (authenticate c s)) = wire s ++ [rq]
  /\ (snd (authenticate c s) = Ok false
      <-> exists r m,
          o = Resolved r /\ resp_json r = PErrorMessage m
          /\ m <> EmptyString)
  /\ (snd (authenticate c s) = Throw APIError <-> o = Rejected).
Proof.
  intros rq o. subst rq o.
  unfold authenticate, bind, ret, throw.
  pose proof (fetchAPI_wire c "me" None "GET" None s) as Hw.
  pose proof (fetchAPI_result c "me" None "GET" None s) as Hr.
  destruct (fetchAPI c "me" None "GET" None s) as [s1 [r|e]];
    simpl in Hw, Hr;
    destruct (snd (fetch (remote s) (build_request c "me" None "GET" None)))
      as [r'|]; try discriminate.
  - injection Hr as <-. simpl.
    split; [destruct (resp_json r); exact Hw|]. split; split.
    + destruct (resp_json r) as [| | |m| | |] eqn:Ej; simpl;
        try discriminate.
      intros [= Hm]. exists r, m.
      split; [reflexivity|]. split; [exact Ej|].
      destruct m; simpl in Hm; [discriminate Hm|intros E; discriminate E].
    + intros (r0 & m & [= <-] & -> & Hm). simpl.
      destruct m; [contradiction|reflexivity].
    + destruct (resp_json r) as [| | |m| | |]; simpl; discriminate.
    + discriminate.
  - injection Hr as <-. simpl. split; [exact Hw|]. split; split.
    + discriminate.
    + intros (r0 & m & [=] & _).
    + reflexivity.
    + reflexivity.
Qed.

Section Catalog.

Context {P : Platform}.

Lemma jsmap_get_set_same {V : Type} (m : JsMap.t V) key (v : V) :
  JsMap.get (JsMap.set m key v) key = Some v.
Proof.
  unfold JsMap.get. induction m as [|[k w] m IH]; simpl.
  - now rewrite String.eqb_refl.
  - destruct (String.eqb_spec k key) as [->|Hk]; simpl.
    + now rewrite String.eqb_refl.
    + destruct (String.eqb_spec k key); [contradiction|exact IH].
Qed.

Lemma jsmap_get_set_other {V : Type} (m : JsMap.t V) key other (v : V) :
  key <> other ->
  JsMap.get (JsMap.set m key v) other = JsMap.get m other.
Proof.
  intros Hne. unfold JsMap.get. induction m as [|[k w] m IH]; simpl.
  - destruct (String.eqb_spec key other); [contradiction|reflexivity].
  - destruct (String.eqb_spec k key) as [->|Hk]; simpl.
    + destruct (String.eqb_spec key other); [contradiction|reflexivity].
    + destruct (String.eqb_spec k other); [reflexivity|exact IH].
Qed.

Lemma string_of_number_inj (a b : Z) :
  Js.string_of_number a = Js.string_of_number b -> a = b.
Proof.
  intros H. apply (f_equal Js.number_of_string) in H.
  rewrite !number_round_trip in H. now injection H.
Qed.

Lemma groups_fold_other (fs : list Feed) (m : JsMap.t string) (n : Z) :
  ~ In n (map feed_id fs) ->
  JsMap.get
    (fold_left
       (fun m f =>
          JsMap.set m (Js.string_of_number (feed_id f))
                    (category_title (feed_category f))) fs m)
    (Js.string_of_number n)
  = JsMap.get m (Js.string_of_number n).
Proof.
  revert m. induction fs as [|f fs IH]; intros m Hn; simpl; [reflexivity|].
  rewrite IH by (intros H; apply Hn; now right).
  apply jsmap_get_set_other. intros E. apply string_of_number_inj in E.
  apply Hn. now left.
Qed.

Lemma groups_of_get (fs : list Feed) (f : Feed) :
  NoDup (map feed_id fs) -> In f fs ->
  JsMap.get (groups_of fs) (Js.string_of_number (feed_id f))
  = Some (category_title (feed_category f)).
Proof.
  unfold groups_of. generalize (@nil (string * string)).
  induction fs as [|g fs IH]; intros m Hnd Hin; [contradiction|].
  simpl in *. inversion Hnd as [|? ? Hg Hnd']; subst.
  destruct Hin as [->|Hin].
  - rewrite groups_fold_other by exact Hg. apply jsmap_get_set_same.
  - now apply IH.
Qed.

End Catalog.

(** X13.  With group import switched off, [updateSources] sends the one
    request for the feeds, dispatches no group, and returns no group
    mapping. *)
Theorem updateSources_without_groups (P : Platform) (s : Sys) :
  importGroups (service s) = false ->
  wire (fst (updateSources s))
  = wire s ++ [build_request (service s) "feeds" None "GET" None]
  /\ dispatched (fst (updateSources s)) = dispatched s
  /\ forall srcs g, snd (updateSources s) = Ok (srcs, g) -> g = None.
Proof.
  intros Hg.
  unfold updateSources, import_groups, bind, getState, ret, throw.
  simpl. rewrite Hg.
  unfold fetchAPI.
  destruct (fetch _ _) as [w [r|]]; simpl.
  - destruct (resp_json r) as [e|fs|[|c cs]|m| | |]; simpl;
      repeat split; try discriminate; now intros srcs g [= _ <-].
  - repeat split. discriminate.
Qed.

Lemma updateSources_without_groups_witness :
  let P := Demo.answering 200 in
  let s := Demo.sys P tt (Demo.configs 5 None) [] [] in
  wire (fst (updateSources s))
  = wire s ++ [build_request (service s) "feeds" None "GET" None]
  /\ dispatched (fst (updateSources s)) = dispatched s
  /\ forall srcs g, snd (updateSources s) = Ok (srcs, g) -> g = None.
Proof.
  intros P s.
  apply (updateSources_without_groups P s).
  reflexivity.
Defined.

(** X14.  When [updateSources] returns a group mapping, group import is
    on and the request for the feeds, made in the state of the service
    that the request for the categories left, was answered with a list
    of feeds (or with an empty array); the sources returned are those
    feeds in order, each with the feed's address, title and id as
    reference; and, the feed ids being distinct, the mapping sends every
    feed's reference to that feed's category title. *)
Theorem updateSources_group_mapping (P : Platform) (s : Sys)
    (srcs : list ImportedSource) (g : JsMap.t string) :
  snd (updateSources s) = Ok (srcs, Some g) ->
  importGroups (service s) = true
  /\ exists r fs,
      snd (fetch
             (fst (fetch (remote s)
                     (build_request (service s) "categories" None "GET"
                        None)))
             (build_request (service s) "feeds" None "GET" None))
      = Resolved r
      /\ (resp_json r = PFeeds fs
          \/ (resp_json r = PCategories [] /\ fs = []))
      /\ map imported_url srcs = map feed_url fs
      /\ map imported_name srcs = map feed_title fs
      /\ map imported_serviceRef srcs
         = map (fun f => Js.string_of_number (feed_id f)) fs
      /\ (NoDup (map feed_id fs) ->
          forall f, In f fs ->
            JsMap.get g (Js.string_of_number (feed_id f))
            = Some (category_title (feed_category f))).
Proof.
  intros H.
  unfold updateSources, import_groups, bind, getState, ret, throw in H.
  simpl in H.
  destruct (importGroups (service s)) eqn:Hg.
  - split; [reflexivity|].
    unfold fetchAPI in H at 1.
    destruct (fetch (remote s)
                (build_request (service s) "categories" None "GET" None))
      as [w0 [r0|]] eqn:E0; simpl in H; [|discriminate].
    assert (Hfeeds :
              forall s1 : Sys,
                remote s1 = w0 ->
                snd (let (s2, x) :=
                       fetchAPI (service s) "feeds" None "GET" None s1 in
                     match x with
                     | Ok a =>
                         match resp_json a with
                         | PFeeds fs =>
                             fun s0 : Sys =>
                               (s0, Ok (map import_feed fs,
                                        Some (groups_of fs)))
                         | PCategories [] =>
                             fun s0 : Sys => (s0, Ok ([], Some []))
                         | PUndefined =>
                             fun s0 : Sys => (s0, Throw APIError)
                         | _ => fun s0 : Sys => (s0, Throw RuntimeError)
                         end s2
                     | Throw e => (s2, Throw e)
                     end) = Ok (srcs, Some g) ->
                exists r fs,
                  snd (fetch w0
                         (build_request (service s) "feeds" None "GET" None))
                  = Resolved r
                  /\ (resp_json r = PFeeds fs
                      \/ (resp_json r = PCategories [] /\ fs = []))
                  /\ map imported_url srcs = map feed_url fs
                  /\ map imported_name srcs = map feed_title fs
                  /\ map imported_serviceRef srcs
                     = map (fun f => Js.string_of_number (feed_id f)) fs
                  /\ (NoDup (map feed_id fs) ->
                      forall f, In f fs ->
                        JsMap.get g (Js.string_of_number (feed_id f))
                        = Some (category_title (feed_category f)))).
    { intros s1 Hs1. unfold fetchAPI. rewrite Hs1.
      destruct (fetch w0 _) as [w1 [r|]]; simpl; [|discriminate].
      destruct (resp_json r) as [e|fs|[|c cs]|m| | |] eqn:Ej; simpl;
        try discriminate.
      - intros [= <- <-]. exists r, fs.
        split; [reflexivity|]. split; [left; exact Ej|].
        rewrite !map_map. repeat split.
        intros Hnd f Hf. now apply groups_of_get.
      - intros [= <- <-]. exists r, [].
        split; [reflexivity|]. split; [right; now split|].
        repeat split. intros _ f []. }
    destruct (resp_json r0) as [e|fs0|cs0|m| | |]; simpl in H;
      try discriminate; (eapply Hfeeds; [|exact H]); reflexivity.
  - exfalso.
    destruct (fetchAPI _ _ _ _ _ s) as [s2 [r|e]]; simpl in H;
      [|discriminate].
    destruct (resp_json r) as [e|fs|[|c cs]|m| | |]; simpl in H;
      discriminate.
Qed.

(** X15.  With group import switched on, a rejected request for the
    categories aborts the import: the service failure is raised, the
    feeds are never requested and no group is dispatched. *)
Theorem updateSources_aborts_on_categories (P : Platform) (s : Sys) :
  importGroups (service s) = true ->
  snd (fetch (remote s)
         (build_request (service s) "categories" None "GET" None))
  = Rejected ->
  snd (updateSources s) = Throw APIError
  /\ wire (fst (updateSources s))
     = wire s ++ [build_request (service s) "categories" None "GET" None]
  /\ dispatched (fst (updateSources s)) = dispatched s.
Proof.
  intros Hg Hr.
  destruct (fetch (remote s)
              (build_request (service s) "categories" None "GET" None))
    as [w o] eqn:Ef.
  simpl in Hr. subst o.
  assert (Hfa : fetchAPI (service s) "categories" None "GET" None s
                = (console_log
                     (sent s w
                        (build_request (service s) "categories" None "GET"
                           None)) APIError, Throw APIError))
    by (unfold fetchAPI; now rewrite Ef).
  unfold updateSources, import_groups, bind, getState, ret, throw.
  simpl. rewrite Hg, Hfa. simpl. repeat split.
Qed.

Lemma updateSources_aborts_on_categories_witness :
  let P := Demo.offline in
  let s := Demo.sys P tt
             (mkConfigs "https://rss.example" true "k" 5 None true) [] [] in
  snd (updateSources s) = Throw APIError
  /\ wire (fst (updateSources s))
     = wire s ++ [build_request (service s) "categories" None "GET" None]
  /\ dispatched (fst (updateSources s)) = dispatched s.
Proof.
  intros P s.
  apply (updateSources_aborts_on_categories P s); reflexivity.
Defined.

Lemma updateSources_group_mapping_witness :
  let P := DemoCatalog.serving [DemoCatalog.news; DemoCatalog.tech]
             DemoCatalog.two_feeds in
  let s := Demo.sys P tt DemoCatalog.grouping [] [] in
  let srcs := map import_feed DemoCatalog.two_feeds in
  let g := [("1", "News"); ("2", "Tech")] in
  snd (updateSources s) = Ok (srcs, Some g)
  /\ dispatched (fst (updateSources s)) = ["News"; "Tech"]
  /\ importGroups (service s) = true
  /\ exists r fs,
       snd (fetch
              (fst (fetch (remote s)
                      (build_request (service s) "categories" None "GET"
                         None)))
              (build_request (service s) "feeds" None "GET" None))
       = Resolved r
       /\ (resp_json r = PFeeds fs
           \/ (resp_json r = PCategories [] /\ fs = []))
       /\ map imported_url srcs = map feed_url fs
       /\ map imported_name srcs = map feed_title fs
       /\ map imported_serviceRef srcs
          = map (fun f => Js.string_of_number (feed_id f)) fs
       /\ (NoDup (map feed_id fs) ->
           forall f, In f fs ->
             JsMap.get g (Js.string_of_number (feed_id f))
             = Some (category_title (feed_category f))).
Proof.
  intros P s srcs g. split; [reflexivity|]. split; [reflexivity|].
  apply (updateSources_group_mapping P s srcs g).
  reflexivity.
Defined.

(* ================================================================= *)
(** ** Further properties of [markAllRead] *)

Section Bulk.

Context {P : Platform}.

Lemma all_feeds_read_wire configs srcs sids :
  forall s : Sys,
    wire (fst (all_feeds_read configs srcs sids s))
    = wire s ++ map (feed_request configs srcs) sids.
Proof.
  induction sids as [|n rest IH]; intros s; simpl.
  - now rewrite app_nil_r.
  - pose proof (fetchAPI_wire configs (feed_path srcs n) None "PUT" None s)
      as Hw.
    destruct (fetchAPI _ _ _ _ _ s) as [s1 [r|e]]; simpl in *;
      rewrite IH, Hw, <- app_assoc; reflexivity.
Qed.

Lemma feed_path_unlinked (srcs : list (RSSSource Rule)) (n : Z) :
  (forall src, In src srcs -> sid src = n -> source_serviceRef src = None) ->
  feed_path srcs n = "feeds/undefined/mark-all-as-read".
Proof.
  intros H. unfold feed_path, source_of_sid.
  destruct (find _ srcs) as [src|] eqn:Ef; [|reflexivity].
  apply find_some in Ef. destruct Ef as [Hin Hsid].
  apply Z.eqb_eq in Hsid. now rewrite (H src Hin Hsid).
Qed.

Lemma markAllRead_undated_wire sids before (s : Sys) :
  wire (fst (markAllRead sids None before s))
  = wire s ++ map (feed_request (service s) (sources s)) sids.
Proof.
  unfold markAllRead, bind, getState. simpl.
  apply all_feeds_read_wire.
Qed.

Lemma markAllRead_dated_run sids d before (s : Sys) :
  let rq := bulk_read_request (service s)
              (map row_ref (filter (selected sids d before) (itemsDB s))) in
  wire (fst (markAllRead sids (Some d) before s)) = wire s ++ [rq]
  /\ (raises (markAllRead sids (Some d) before) s
      <-> snd (fetch (remote s) rq) = Rejected).
Proof.
  intros rq. subst rq.
  unfold raises, markAllRead, bind, getState, ret, bulk_read_request.
  simpl.
  pose proof (fetchAPI_wire (service s) "entries" None "PUT"
                (Some (status_body
                         (Js.join
                            (map row_ref
                               (filter (selected sids d before) (itemsDB s))))
                         12 "read")) s) as Hw.
  pose proof (fetchAPI_result (service s) "entries" None "PUT"
                (Some (status_body
                         (Js.join
                            (map row_ref
                               (filter (selected sids d before) (itemsDB s))))
                         12 "read")) s) as Hr.
  destruct (fetchAPI _ _ _ _ _ s) as [s1 [r|e]]; simpl in *;
    (split; [exact Hw|]);
    destruct (snd (fetch (remote s) _)) as [r'|]; try discriminate; split.
  - intros [e He]. discriminate.
  - discriminate.
  - reflexivity.
  - intros _. now eexists.
Qed.

End Bulk.

(** X16.  Without a date, [markAllRead] sends one mark-all-as-read
    request per source id, in the order given, and sends all of them
    even when some are rejected. *)
Theorem markAllRead_one_request_per_source (P : Platform) (sids : list Z)
    (before : bool) (s : Sys) :
  wire (fst (markAllRead sids None before s))
  = wire s ++ map (feed_request (service s) (sources s)) sids.
Proof.
  apply markAllRead_undated_wire.
Qed.

Lemma markAllRead_one_request_per_source_witness :
  let P := Demo.offline in
  let s := Demo.sys P tt (Demo.configs 5 None) [Demo.a_source None] [] in
  map req_url (wire (fst (markAllRead [10; 11] None true s)))
  = ["https://rss.example/v1/feeds/1/mark-all-as-read";
     "https://rss.example/v1/feeds/undefined/mark-all-as-read"].
Proof.
  intros P s.
  rewrite (markAllRead_one_request_per_source P [10; 11] true s).
  reflexivity.
Defined.

(** X17.  A source id that names no local source, or one without a
    remote reference, is still sent for: the request goes to the feed
    literally called [undefined]. *)
Theorem markAllRead_unlinked_source (P : Platform) (n : Z) (before : bool)
    (s : Sys) :
  (forall src, In src (sources s) -> sid src = n ->
               source_serviceRef src = None) ->
  wire (fst (markAllRead [n] None before s))
  = wire s
    ++ [build_request (service s) "feeds/undefined/mark-all-as-read" None
          "PUT" None].
Proof.
  intros H. rewrite markAllRead_undated_wire.
  simpl. unfold feed_request. now rewrite (feed_path_unlinked _ _ H).
Qed.

Lemma markAllRead_unlinked_source_witness :
  let P := Demo.answering 204 in
  let s := Demo.sys P tt (Demo.configs 5 None) [Demo.a_source None] [] in
  wire (fst (markAllRead [11] None true s))
  = wire s
    ++ [build_request (service s) "feeds/undefined/mark-all-as-read" None
          "PUT" None].
Proof.
  intros P s.
  apply (markAllRead_unlinked_source P 11 true s).
  intros src [<-|[]] Hsid. discriminate Hsid.
Defined.

(** X18.  With a boundary date and [before] unset, [markAllRead] sends
    one request, a [PUT] of [entries] whose body is the text of the
    source with, between the brackets of [entry_ids] and separated by
    commas, the references of exactly those rows of the local table,
    each as often as it is stored and in some order, that belong to the
    given sources, are unread, carry a reference, and are dated at or
    after the boundary. *)
Theorem markAllRead_after_selects (P : Platform) (sids : list Z) (d : Z)
    (s : Sys) :
  let q := String "034"%char EmptyString in
  let nl := String "010"%char EmptyString in
  exists rows rest refs rq,
    Permutation (itemsDB s) (rows ++ rest)
    /\ Forall (fun row =>
                 In (item_source row) sids
                 /\ item_hasRead row = false
                 /\ item_serviceRef row <> None
                 /\ d <= item_date row) rows
    /\ Forall (fun row =>
                 ~ (In (item_source row) sids
                 /\ item_hasRead row = false
                 /\ item_serviceRef row <> None
                 /\ d <= item_date row)) rest
    /\ (forall row,
           In row rows
           <-> In row (itemsDB s)
               /\ In (item_source row) sids
               /\ item_hasRead row = false
               /\ item_serviceRef row <> None
               /\ d <= item_date row)
    /\ Forall2 (fun row r => item_serviceRef row = Some r) rows refs
    /\ wire (fst (markAllRead sids (Some d) false s)) = wire s ++ [rq]
    /\ req_method rq = "PUT"
    /\ req_url rq = String.append (baseUrl (service s)) "entries"
    /\ req_query rq = None
    /\ req_body rq
       = Some (String.concat EmptyString
                  ["{"; nl;
                   "                "; q; "entry_ids"; q; ": [";
                   String.concat "," refs; "],"; nl;
                   "                "; q; "status"; q; ": "; q; "read"; q; nl;
                   "            "; "}"]).
Proof.
  intros q nl.
  destruct (markAllRead_dated_request P sids d false s)
    as (rows & rest & refs & rq & Hp & Hrows & Hrest & Hrefs & Hrq).
  exists rows, rest, refs, rq.
  split; [exact Hp|]. split; [exact Hrows|]. split; [exact Hrest|].
  split; [|split; [exact Hrefs|exact Hrq]].
  exact (partition_In _ _ _ _ Hp Hrows Hrest).
Qed.

(** X19.  With a boundary date, [markAllRead] sends its bulk request even
    when no row is selected; the list of ids in the body is then
    empty. *)
Theorem markAllRead_empty_selection (P : Platform) (sids : list Z) (d : Z)
    (before : bool) (s : Sys) :
  Forall (fun row => selected sids d before row = false) (itemsDB s) ->
  wire (fst (markAllRead sids (Some d) before s))
  = wire s ++ [bulk_read_request (service s) []].
Proof.
  intros Hnone.
  destruct (markAllRead_dated_run sids d before s) as [Hw _].
  rewrite Hw.
  assert (Hf : filter (selected sids d before) (itemsDB s) = []).
  { revert Hnone. generalize (itemsDB s) as rows.
    induction rows as [|row rows IH]; intros Hnone; [reflexivity|].
    inversion Hnone as [|? ? Hrow Hrest]; subst. simpl.
    rewrite Hrow. now apply IH. }
  now rewrite Hf.
Qed.

Lemma markAllRead_empty_selection_witness :
  let P := Demo.answering 204 in
  let s := Demo.sys P tt (Demo.configs 5 None) [Demo.a_source None]
             [Demo.an_item (Some "7") 50 false;
              Demo.an_item (Some "8") 5 true;
              Demo.an_item None 5 false] in
  map req_body (wire (fst (markAllRead [10] (Some 10) true s)))
  = map req_body [bulk_read_request (service s) []].
Proof.
  intros P s.
  rewrite (markAllRead_empty_selection P [10] 10 true s).
  - reflexivity.
  - repeat constructor.
Defined.

(** X20.  With a boundary date, [markAllRead] does not look at the
    response: it raises exactly when the bulk request is rejected. *)
Theorem markAllRead_dated_raises (P : Platform) (sids : list Z) (d : Z)
    (before : bool) (s : Sys) :
  raises (markAllRead sids (Some d) before) s
  <-> snd (fetch (remote s)
             (bulk_read_request (service s)
                (map row_ref
                   (filter (selected sids d before) (itemsDB s)))))
      = Rejected.
Proof.
  apply markAllRead_dated_run.
Qed.

(* ================================================================= *)
(** ** Properties of [performUpdate] *)

Module UpdateFacts.

Import Update.

Lemma split_dot_no_dot (v : string) :
  (forall c, In c (list_ascii_of_string v) -> c <> "."%char) ->
  split_dot v = [v].
Proof.
  induction v as [|c v IH]; intros H; simpl; [reflexivity|].
  destruct (Ascii.eqb_spec c ".") as [->|Hc].
  - exfalso. apply (H "."%char); [now left|reflexivity].
  - rewrite IH; [reflexivity|].
    intros c' Hc'. apply H. now right.
Qed.

Lemma first_step_useNeDB parseInt app st :
  exists b,
    useNeDB (performUpdate parseInt app st) = Some b
    /\ (forall b0, useNeDB st = Some b0 -> b = b0).
Proof.
  unfold performUpdate.
  destruct (useNeDB st) as [b0|] eqn:Eu, (version st) as [v|];
    try destruct (String.eqb v (getVersion app)); simpl;
    rewrite ?Eu; eexists; (split; [reflexivity|]);
    intros b1 [= <-]; reflexivity.
Qed.

Lemma stored_version_after parseInt app st :
  version (performUpdate parseInt app st) = Some (getVersion app).
Proof.
  unfold performUpdate.
  destruct (version st) as [v|] eqn:Ev.
  - destruct (String.eqb_spec v (getVersion app)) as [->|Hne].
    + destruct (useNeDB st); simpl; exact Ev.
    + reflexivity.
  - reflexivity.
Qed.

End UpdateFacts.

(** X21.  After [performUpdate] the stored version is the version of the
    running application, whatever was stored before. *)
Theorem performUpdate_stores_current_version
    (parseInt : string -> option Z) (app : Update.App) (st : Update.Store) :
  Update.version (Update.performUpdate parseInt app st)
  = Some (Update.getVersion app).
Proof.
  apply UpdateFacts.stored_version_after.
Qed.

(** X22.  [performUpdate] always leaves [useNeDB] decided, and never
    changes a decision already stored. *)
Theorem performUpdate_decides_useNeDB_once
    (parseInt : string -> option Z) (app : Update.App) (st : Update.Store) :
  exists b,
    Update.useNeDB (Update.performUpdate parseInt app st) = Some b
    /\ (forall b0, Update.useNeDB st = Some b0 -> b = b0).
Proof. apply UpdateFacts.first_step_useNeDB. Qed.

(** X23.  Running [performUpdate] a second time changes nothing. *)
Theorem performUpdate_idempotent
    (parseInt : string -> option Z) (app : Update.App) (st : Update.Store) :
  Update.performUpdate parseInt app (Update.performUpdate parseInt app st)
  = Update.performUpdate parseInt app st.
Proof.
  pose proof (UpdateFacts.stored_version_after parseInt app st) as Hv.
  destruct (UpdateFacts.first_step_useNeDB parseInt app st) as (b & Hb & _).
  destruct (Update.performUpdate parseInt app st) as [v u] eqn:E.
  simpl in Hv, Hb. subst v u.
  unfold Update.performUpdate. simpl.
  now rewrite String.eqb_refl.
Qed.

(** X24.  An application that is not packaged and finds a stored version
    but no decision chooses [useNeDB], whatever the version. *)
Theorem performUpdate_unpackaged
    (parseInt : string -> option Z) (app : Update.App) (st : Update.Store)
    (v : string) :
  Update.isPackaged app = false ->
  Update.useNeDB st = None ->
  Update.version st = Some v ->
  Update.useNeDB (Update.performUpdate parseInt app st) = Some true.
Proof.
  intros Hp Hu Hv. unfold Update.performUpdate.
  rewrite Hu, Hv, Hp. simpl negb. rewrite orb_true_r.
  destruct (String.eqb v (Update.getVersion app)); reflexivity.
Qed.

Lemma performUpdate_unpackaged_witness :
  let app := Update.mkApp "1.1.4" false in
  let st := Update.mkStore (Some "1.1.3") None in
  Update.useNeDB (Update.performUpdate Update.decimal app st) = Some true.
Proof.
  intros app st.
  apply (performUpdate_unpackaged Update.decimal app st "1.1.3");
    reflexivity.
Defined.

(** X25.  A packaged application that finds a stored version without a
    dot and no decision chooses against [useNeDB], whatever [parseInt]
    makes of the version: the minor number is missing. *)
Theorem performUpdate_version_without_dot
    (parseInt : string -> option Z) (app : Update.App) (st : Update.Store)
    (v : string) :
  Update.isPackaged app = true ->
  Update.useNeDB st = None ->
  Update.version st = Some v ->
  (forall c, In c (list_ascii_of_string v) -> c <> "."%char) ->
  Update.useNeDB (Update.performUpdate parseInt app st) = Some false.
Proof.
  intros Hp Hu Hv Hdot. unfold Update.performUpdate.
  rewrite Hu, Hv, Hp, (UpdateFacts.split_dot_no_dot v Hdot).
  unfold Update.before_0_8. simpl. rewrite andb_false_r. simpl.
  destruct (String.eqb v (Update.getVersion app)); reflexivity.
Qed.

Lemma performUpdate_version_without_dot_witness :
  let app := Update.mkApp "1.1.4" true in
  let st := Update.mkStore (Some "0") None in
  Update.useNeDB (Update.performUpdate Update.decimal app st) = Some false.
Proof.
  intros app st.
  apply (performUpdate_version_without_dot Update.decimal app st "0");
    try reflexivity.
  intros c [<-|[]]. discriminate.
Defined.

(* ================================================================= *)
(** ** How a run of [fetchEntries] ends at its first page *)

Lemma lastOf_nonempty {A : Type} (x : A) (xs : list A) :
  exists y, Js.lastOf (x :: xs) = Some y.
Proof.
  revert x. induction xs as [|z xs IH]; intros x; [now exists x|].
  destruct (IH z) as [y Hy]. exists y. exact Hy.
Qed.

(** X26.  When the first page reports a total below the page size, the
    run ends there: one request is sent and the entries of that page,
    possibly none, are what is returned. *)
Theorem fetchEntries_short_first_page (P : Platform) (fuel : nat)
    (q : URLSearchParams.t) (fetchNew : bool) (pageLimit : Z) (s : Sys)
    (w : World) (r : Response) (e : Entries) :
  let c := set_lastId (service s) (Some (cursor_of (service s))) in
  let q0 := place_cursor fetchNew c None
              (URLSearchParams.set q "limit"
                 (Js.string_of_number pageLimit)) in
  fetch (remote s) (entries_request c q0) = (w, Resolved r) ->
  resp_json r = PEntries e ->
  total e < pageLimit ->
  exists s',
    fetchEntries (S fuel) q fetchNew pageLimit s
    = Some (s', (entries e, q0))
    /\ wire s' = wire s ++ [entries_request c q0].
Proof.
  intros c q0 Hf Hj Ht.
  set (s0 := with_service s c).
  assert (Hfa : fetchAPI c "entries?" (Some q0) "GET" None s0
                = (sent s0 w (entries_request c q0), Ok r)).
  { unfold fetchAPI. change (remote s0) with (remote s).
    unfold entries_request in Hf. now rewrite Hf. }
  assert (Hnext : forall x xs, entries e = x :: xs ->
                    exists y, next_cursor fetchNew ([] ++ entries e)
                                (entries e) = Some y).
  { intros x xs ->. unfold next_cursor.
    destruct fetchNew; apply lastOf_nonempty. }
  unfold fetchEntries. cbn [fetchLoop].
  change (try_page _ _ _ _) with (try_page fetchNew [] q0 s0).
  unfold try_page. change (service s0) with c. rewrite Hfa, Hj.
  destruct (entries e) as [|x xs] eqn:Ee.
  - eexists. split; reflexivity.
  - destruct (Hnext x xs eq_refl) as [y Hy]. rewrite Hy.
    destruct (Z.leb_spec pageLimit (total e)) as [Hle|_]; [lia|].
    simpl. eexists. split; reflexivity.
Qed.

Lemma fetchEntries_short_first_page_witness :
  let P := Demo.online [Demo.entry 7] in
  let s := Demo.sys P tt (Demo.configs 5 None) [] [] in
  let c := Demo.configs 5 (Some 0) in
  let q0 := [("limit", "2"); ("after_entry_id", "0")] in
  exists s',
    fetchEntries 1 [] true 2 s = Some (s', ([Demo.entry 7], q0))
    /\ wire s' = wire s ++ [entries_request c q0].
Proof.
  intros P s c q0.
  apply (fetchEntries_short_first_page P 0 [] true 2 s tt
           (mkResponse 200 (PEntries (mkEntries 1 [Demo.entry 7])))
           (mkEntries 1 [Demo.entry 7])).
  - reflexivity.
  - reflexivity.
  - simpl. lia.
Defined.

(** X27.  When the first request brings back no page, because it is
    rejected or because the body is not a page of entries, the run ends
    without an error: one request is sent and nothing is returned. *)
Theorem fetchEntries_first_page_fails (P : Platform) (fuel : nat)
    (q : URLSearchParams.t) (fetchNew : bool) (pageLimit : Z) (s : Sys) :
  let c := set_lastId (service s) (Some (cursor_of (service s))) in
  let q0 := place_cursor fetchNew c None
              (URLSearchParams.set q "limit"
                 (Js.string_of_number pageLimit)) in
  (forall r e,
      snd (fetch (remote s) (entries_request c q0)) = Resolved r ->
      resp_json r <> PEntries e) ->
  exists s',
    fetchEntries (S fuel) q fetchNew pageLimit s = Some (s', ([], q0))
    /\ wire s' = wire s ++ [entries_request c q0].
Proof.
  intros c q0 Hno.
  set (s0 := with_service s c).
  unfold fetchEntries. cbn [fetchLoop].
  change (try_page _ _ _ _) with (try_page fetchNew [] q0 s0).
  unfold try_page, fetchAPI. change (service s0) with c.
  change (remote s0) with (remote s).
  unfold entries_request in Hno.
  destruct (fetch (remote s)
              (build_request c "entries?" (Some q0) "GET" None))
    as [w [r|]] eqn:Ef; simpl.
  - destruct (resp_json r) as [e| | | | | |] eqn:Ej;
      try (eexists; split; reflexivity).
    exfalso. exact (Hno r e eq_refl Ej).
  - eexists. split; reflexivity.
Qed.

Lemma fetchEntries_first_page_fails_witness :
  let P := Demo.offline in
  let s := Demo.sys P tt (Demo.configs 5 (Some 3)) [] [] in
  let c := Demo.configs 5 (Some 3) in
  let q0 := [("limit", "125"); ("after_entry_id", "3")] in
  exists s',
    fetchEntries 1 [] true 125 s = Some (s', ([], q0))
    /\ wire s' = wire s ++ [entries_request c q0].
Proof.
  intros P s c q0.
  apply (fetchEntries_first_page_fails P 0 [] true 125 s).
  intros r e H. discriminate H.
Defined.

(* ================================================================= *)
(** ** The source map and the mapped items *)

Section SourceMap.

Context {P : Platform}.

Lemma jsmap_get_set_inv {V : Type} (m : JsMap.t V) key other (v w : V) :
  JsMap.get (JsMap.set m key v) other = Some w ->
  (key = other /\ w = v) \/ JsMap.get m other = Some w.
Proof.
  destruct (String.eqb_spec key other) as [<-|Hne].
  - rewrite jsmap_get_set_same. intros [= <-]. now left.
  - rewrite jsmap_get_set_other by exact Hne. now right.
Qed.

Lemma source_map_fold_sound (srcs : list (RSSSource Rule))
    (m : JsMap.t (RSSSource Rule)) key src :
  JsMap.get
    (fold_left
       (fun m src =>
          if Js.truthy (source_serviceRef src)
          then JsMap.set m (Js.template (source_serviceRef src)) src
          else m) srcs m) key = Some src ->
  (In src srcs /\ source_serviceRef src = Some key)
  \/ JsMap.get m key = Some src.
Proof.
  revert m. induction srcs as [|x srcs IH]; intros m; simpl;
    [now right|].
  intros H. apply IH in H. destruct H as [[Hin Href]|H].
  - left. split; [now right|exact Href].
  - destruct (source_serviceRef x) as [ref|] eqn:Ex; simpl in H;
      [|now right].
    destruct (Js.truthy_string ref); [|now right].
    apply jsmap_get_set_inv in H. destruct H as [[<- ->]|H]; [|now right].
    left. split; [now left|exact Ex].
Qed.

Lemma source_map_fold_defined (srcs : list (RSSSource Rule))
    (m : JsMap.t (RSSSource Rule)) key :
  (JsMap.get m key <> None
   \/ exists src, In src srcs /\ source_serviceRef src = Some key
                  /\ key <> EmptyString) ->
  JsMap.get
    (fold_left
       (fun m src =>
          if Js.truthy (source_serviceRef src)
          then JsMap.set m (Js.template (source_serviceRef src)) src
          else m) srcs m) key <> None.
Proof.
  revert m. induction srcs as [|x srcs IH]; intros m; simpl.
  - intros [H|(src & [] & _)]. exact H.
  - intros H. apply IH.
    destruct H as [H|(src & [->|Hin] & Href & Hkey)].
    + left. destruct (Js.truthy (source_serviceRef x)); [|exact H].
      destruct (String.eqb_spec (Js.template (source_serviceRef x)) key)
        as [<-|Hne].
      * rewrite jsmap_get_set_same. discriminate.
      * now rewrite jsmap_get_set_other.
    + left. rewrite Href. simpl.
      destruct key; [contradiction|]. simpl.
      rewrite jsmap_get_set_same. discriminate.
    + right. now exists src.
Qed.

Lemma parse_item_mirror sourceMap now item parsed ts :
  (forall key src, JsMap.get sourceMap key = Some src -> rules src = None) ->
  parse_item sourceMap now item = Ok (parsed, ts) ->
  ts = []
  /\ item_serviceRef parsed = Some (entry_ref item)
  /\ item_hasRead parsed = is_read (status item)
  /\ item_starred parsed = starred item.
Proof.
  intros Hrules. unfold parse_item.
  destruct (JsMap.get _ _) as [source|] eqn:Eg; [|discriminate].
  rewrite (Hrules _ _ Eg).
  destruct (urlOrigin _) as [origin|]; [|discriminate].
  intros [= <- <-]. unfold with_thumbnail.
  destruct (querySelectorImgSrc _ _) as [src|]; [|now repeat split].
  destruct (Js.truthy_string src); now repeat split.
Qed.

End SourceMap.

(** X28.  The source map finds, under a reference, only a local source
    that carries that reference; and it finds one whenever some local
    source carries the reference and the reference is not empty. *)
Theorem build_source_map_lookup (P : Platform)
    (srcs : list (RSSSource Rule)) (key : string) :
  (forall src,
      JsMap.get (build_source_map srcs) key = Some src ->
      In src srcs /\ source_serviceRef src = Some key)
  /\ ((exists src, In src srcs /\ source_serviceRef src = Some key
                   /\ key <> EmptyString) ->
      JsMap.get (build_source_map srcs) key <> None).
Proof.
  unfold build_source_map. split.
  - intros src H. apply source_map_fold_sound in H.
    destruct H as [H|H]; [exact H|discriminate].
  - intros H. apply source_map_fold_defined. now right.
Qed.

(** X29.  When no linked source has rules, mapping builds no thunk, and
    the mapped items mirror the fetched entries one for one: the entry's
    id as reference, its read and starred flags. *)
Theorem parse_items_mirror_without_rules (P : Platform)
    (sourceMap : JsMap.t (RSSSource Rule)) (now : Z) (items : list Entry)
    (parsed : list RSSItem) (ts : list Thunk) :
  (forall key src, JsMap.get sourceMap key = Some src -> rules src = None) ->
  parse_items sourceMap now items = Ok (parsed, ts) ->
  ts = []
  /\ map item_serviceRef parsed = map (fun e => Some (entry_ref e)) items
  /\ map item_hasRead parsed = map (fun e => is_read (status e)) items
  /\ map item_starred parsed = map starred items.
Proof.
  intros Hrules. revert parsed ts.
  induction items as [|x items IH]; intros parsed ts; simpl.
  - intros [= <- <-]. now repeat split.
  - destruct (parse_item sourceMap now x) as [[p t]|e] eqn:Ex;
      [|discriminate].
    destruct (parse_items sourceMap now items) as [[ps tss]|e];
      [|discriminate].
    intros [= <- <-].
    destruct (parse_item_mirror _ _ _ _ _ Hrules Ex) as (-> & Hr & Hh & Hs).
    destruct (IH ps tss eq_refl) as (-> & Hrs & Hhs & Hss).
    simpl. rewrite Hr, Hh, Hs, Hrs, Hhs, Hss. now repeat split.
Qed.

Lemma parse_items_mirror_without_rules_witness :
  let P := Demo.online [] in
  let sourceMap := build_source_map [Demo.a_source None] in
  let items := [Demo.entry 7; Demo.entry 6] in
  let parsed := [Demo.mapped 7; Demo.mapped 6] in
  parse_items sourceMap 0 items = Ok (parsed, [])
  /\ @nil Thunk = []
  /\ map item_serviceRef parsed = map (fun e => Some (entry_ref e)) items
  /\ map item_hasRead parsed = map (fun e => is_read (status e)) items
  /\ map item_starred parsed = map starred items.
Proof.
  intros P sourceMap items parsed. split; [reflexivity|].
  apply (parse_items_mirror_without_rules P sourceMap 0 items parsed []).
  - intros key src H. unfold sourceMap, build_source_map in H.
    apply source_map_fold_sound in H.
    destruct H as [[[<-|[]] _]|H]; [reflexivity|discriminate H].
  - reflexivity.
Defined.
